(** * Tic-Tac-Toe engine of [bot/exts/fun/tic_tac_toe.py]

    A shallow embedding of the game engine (board, win detection, the
    two move sources, the turn loop and the cog's registry of games)
    followed by the properties of its specification.

    Part I holds the definitions, translated from the Python source;
    Part II holds the lemmas and theorems. *)

From Stdlib Require Import ZArith Lia DecimalString.
From stdpp Require Import base tactics option list strings pretty.

Local Open Scope Z_scope.

(** * Part I: the embedding *)

(** ** Python runtime: exceptions and the two monads *)

(** The exceptions the modelled code can raise. [CheckFailure] is what a
    failed command check ([guild_only], [is_channel_free], ...) raises. *)
Inductive exn := KeyError | IndexError | ValueError | TypeError | CheckFailure.

Inductive result (A : Type) : Type :=
| Ok (a : A)
| Raise (e : exn).
Arguments Ok {A} a.
Arguments Raise {A} e.

(** Pure code that may raise. *)
Module Res.
Definition bind {A B} (m : result A) (k : A -> result B) : result B :=
  match m with
  | Ok a => k a
  | Raise e => Raise e
  end.
End Res.

(** Code that mutates a state [S] and may raise; the state reached when an
    exception is raised is kept, as mutations done before a Python exception
    are. *)
Definition M (S A : Type) : Type := S -> result A * S.

Module St.
Definition ret {S A} (a : A) : M S A := fun s => (Ok a, s).
Definition raise {S A} (e : exn) : M S A := fun s => (Raise e, s).
Definition bind {S A B} (m : M S A) (k : A -> M S B) : M S B :=
  fun s =>
    match m s with
    | (Ok a, s') => k a s'
    | (Raise e, s') => (Raise e, s')
    end.
Definition get {S} : M S S := fun s => (Ok s, s).
Definition modify {S} (f : S -> S) : M S unit := fun s => (Ok tt, f s).
Definition lift {S A} (r : result A) : M S A := fun s => (r, s).
(** Run a computation on the second component of a pair of states. *)
Definition on_snd {S1 S2 A} (m : M S2 A) : M (S1 * S2) A :=
  fun s => let '(r, s2) := m (snd s) in (r, (fst s, s2)).
Definition on_fst {S1 S2 A} (m : M S1 A) : M (S1 * S2) A :=
  fun s => let '(r, s1) := m (fst s) in (r, (s1, snd s)).
End St.

Declare Scope res_scope.
Delimit Scope res_scope with res.
Notation "x <~ m ;; k" := (Res.bind m (fun x => k))
  (at level 100, m at next level, right associativity) : res_scope.

Declare Scope st_scope.
Delimit Scope st_scope with st.
Notation "x <~ m ;; k" := (St.bind m (fun x => k))
  (at level 100, m at next level, right associativity) : st_scope.
Notation "m ;;; k" := (St.bind m (fun _ => k))
  (at level 100, right associativity) : st_scope.

(** [l[i]] on a Python list: a negative index counts from the end. *)
Definition getitem {A} (l : list A) (i : Z) : result A :=
  let n := Z.of_nat (length l) in
  let j := if i <? 0 then i + n else i in
  if (j <? 0) || (n <=? j) then Raise IndexError
  else match l !! Z.to_nat j with
       | Some x => Ok x
       | None => Raise IndexError
       end.

(** [l[i] = x] on a Python list. *)
Definition setitem {A} (l : list A) (i : Z) (x : A) : result (list A) :=
  let n := Z.of_nat (length l) in
  let j := if i <? 0 then i + n else i in
  if (j <? 0) || (n <=? j) then Raise IndexError
  else Ok (<[Z.to_nat j := x]> l).

(** [range(start, stop)] and [range(start, stop, step)] for [step > 0]. *)
Definition range (start stop : Z) : list Z :=
  map (fun i => start + Z.of_nat i) (seq 0 (Z.to_nat (stop - start))).

Definition range_step (start stop step : Z) : list Z :=
  map (fun i => start + step * Z.of_nat i)
      (seq 0 (Z.to_nat ((stop - start + step - 1) / step))).

(** [int(s)] for a string of decimal digits with an optional minus sign;
    anything else raises [ValueError]. (The plus sign, blanks and digit
    separators that Python also reads never occur in a custom id.) *)
Definition py_int (s : string) : result Z :=
  match NilZero.int_of_string s with
  | Some d => Ok (Z.of_int d)
  | None => Raise ValueError
  end.

(** [str(z)] *)
Definition py_str (z : Z) : string := pretty z.

Definition newline : string := String (Ascii.ascii_of_nat 10) EmptyString.

(** ** Emojis *)

(** Modelled from the spec: the [Emojis] constants of [bot.constants] are
    not part of the sources at hand; the three board marks (Empty, X, O) are
    pairwise distinct constants, and so are the two reactions of the
    confirmation message. *)
Module Emojis.
Inductive t := empty_placeholder | x_square | o_square.

Inductive reaction := confirmation | decline | other_reaction.

Definition eqb (a b : t) : bool :=
  match a, b with
  | empty_placeholder, empty_placeholder
  | x_square, x_square
  | o_square, o_square => true
  | _, _ => false
  end.

Definition reaction_eqb (a b : reaction) : bool :=
  match a, b with
  | confirmation, confirmation
  | decline, decline
  | other_reaction, other_reaction => true
  | _, _ => false
  end.
End Emojis.

(** ** Python dictionaries with integer keys

    A [dict] keeps its items in insertion order; assigning to a key that is
    present replaces the value in place, assigning to a new key appends. *)
Module Dict.
Definition t (V : Type) := list (Z * V).

Definition items {V} (d : t V) : list (Z * V) := d.
Definition keys {V} (d : t V) : list Z := map fst d.
Definition values {V} (d : t V) : list V := map snd d.

Definition fromkeys {V} (ks : list Z) (v : V) : t V :=
  map (fun k => (k, v)) ks.

Fixpoint find {V} (k : Z) (d : t V) : option V :=
  match d with
  | [] => None
  | (k', v) :: d' => if k =? k' then Some v else find k d'
  end.

(** [d[k]] *)
Definition get {V} (k : Z) (d : t V) : result V :=
  match find k d with
  | Some v => Ok v
  | None => Raise KeyError
  end.

(** [d[k] = v] *)
Fixpoint set {V} (k : Z) (v : V) (d : t V) : t V :=
  match d with
  | [] => [(k, v)]
  | (k', v') :: d' =>
      if k =? k' then (k', v) :: d' else (k', v') :: set k v d'
  end.

(** [d.copy()]: dictionaries are values here, so a copy is the dictionary. *)
Definition copy {V} (d : t V) : t V := d.
End Dict.

(** ** The board and [check_win] *)

Definition Board := Dict.t Emojis.t.

Definition Line : Type := Z * Z * Z.

Definition winning_combinations : list Line :=
  [ (* Horizontal *)
    (1, 2, 3); (4, 5, 6); (7, 8, 9);
    (* Vertical *)
    (1, 4, 7); (2, 5, 8); (3, 6, 9);
    (* Diagonal *)
    (1, 5, 9); (3, 5, 7) ].

(** [e in (p, q)] for a pair of emojis *)
Definition emoji_in (e p q : Emojis.t) : bool :=
  Emojis.eqb e p || Emojis.eqb e q.

(** The test of one combination. The chained comparison
    [board[a] == board[b] == board[c]] looks [board[c]] up only when the
    first comparison holds, and the membership test looks [board[a]] up
    again only when the chain holds. *)
Definition combination_wins (board : Board) (l : Line) : result bool :=
  let '(a, b, c) := l in
  (x <~ Dict.get a board ;;
   y <~ Dict.get b board ;;
   chain <~ (if Emojis.eqb x y
             then (z <~ Dict.get c board ;; Ok (Emojis.eqb y z))
             else Ok false) ;;
   if chain
   then (x' <~ Dict.get a board ;;
         Ok (emoji_in x' Emojis.x_square Emojis.o_square))
   else Ok false)%res.

Fixpoint check_win_loop (combos : list Line) (board : Board)
  : result (bool * option Line) :=
  match combos with
  | [] => Ok (false, None)
  | l :: rest =>
      (hit <~ combination_wins board l ;;
       if hit then Ok (true, Some l) else check_win_loop rest board)%res
  end.

(** Check from board, is any player won game. *)
Definition check_win (board : Board) : result (bool * option Line) :=
  check_win_loop winning_combinations board.

(** ** The messaging platform, as far as the engine sees it *)

Record User := mkUser { user_id : Z; user_bot : bool }.

(** Users compare by their id. *)
Definition user_eqb (a b : User) : bool := user_id a =? user_id b.

(** Message contents: literal text with the mentions and emojis that the
    f-strings of the source splice in. *)
Inductive Frag :=
| Txt (s : string)
| Mention (u : User)
| Emoji (e : Emojis.t)
| Reaction (r : Emojis.reaction).

Definition Text := list Frag.

(** An interaction (a button click) as [check_for_move] reads it. *)
Record Interaction := mkInteraction {
  inter_is_component : bool;   (* inter.type == InteractionType.component *)
  inter_custom_id : string;    (* inter.data['custom_id'] *)
  inter_user : User;
  inter_message : Z            (* inter.message.id *)
}.

Inductive Event :=
| EvInteraction (inter : Interaction)
| EvReactionAdd (emoji : Emojis.reaction) (message : Z) (user : User).

(** What the engine emits. Edits and deletions of messages, deferred
    responses, added reactions and typing indicators carry no game state
    and are left out. *)
Inductive Outgoing :=
| Send (channel : Z) (content : Text)
| SendEmbed (channel : Z) (title description : Text)
| Respond (inter : Interaction) (content : Text) (ephemeral : bool).

(** The world a command runs in. Time is counted in milliseconds; [inbox]
    holds the events still to come with their arrival times, in arrival
    order; [entropy] feeds the [random] module. *)
Record World := mkWorld {
  clock : Z;
  inbox : list (Z * Event);
  entropy : list Z;
  outbox : list Outgoing;
  next_id : Z
}.

Definition set_clock (t : Z) (w : World) : World :=
  mkWorld t (inbox w) (entropy w) (outbox w) (next_id w).
Definition set_inbox (i : list (Z * Event)) (w : World) : World :=
  mkWorld (clock w) i (entropy w) (outbox w) (next_id w).
Definition emit (o : Outgoing) (w : World) : World :=
  mkWorld (clock w) (inbox w) (entropy w) (outbox w ++ [o]) (next_id w).

Definition TIMEOUT : Z := 60000.
Definition INTERACTION_ID_PREFIX : string := "tic-tac-toe-action-".

Module Discord.
(** [channel.send(content)]: the new message's id is returned. *)
Definition send (channel : Z) (content : Text) : M World Z :=
  fun w =>
    (Ok (next_id w),
     mkWorld (clock w) (inbox w) (entropy w)
             (outbox w ++ [Send channel content]) (next_id w + 1)).

Definition send_embed (channel : Z) (title description : Text) : M World Z :=
  fun w =>
    (Ok (next_id w),
     mkWorld (clock w) (inbox w) (entropy w)
             (outbox w ++ [SendEmbed channel title description])
             (next_id w + 1)).

(** [inter.response.send_message(content, ephemeral=...)] *)
Definition respond (inter : Interaction) (content : Text) (ephemeral : bool)
  : M World unit :=
  St.modify (emit (Respond inter content ephemeral)).

(** The scan behind [bot.wait_for]: a wait begun at [start] is handed the
    first event that arrives from then on, before [deadline], and passes
    [check]; events that arrived earlier, are of another kind or fail the
    check are gone. The result is the event with its arrival time, if any,
    and the events still to come. *)
Fixpoint await_event {A} (select : Event -> option A) (check : A -> bool)
    (start deadline : Z) (pending : list (Z * Event))
  : option (Z * A) * list (Z * Event) :=
  match pending with
  | [] => (None, [])
  | (t, ev) :: rest =>
      if t <? start then await_event select check start deadline rest
      else if deadline <=? t then (None, pending)
      else match select ev with
           | Some a =>
               if check a then (Some (t, a), rest)
               else await_event select check start deadline rest
           | None => await_event select check start deadline rest
           end
  end.

(** [bot.wait_for(kind, timeout=timeout, check=check)]; [None] stands for
    [asyncio.TimeoutError]. *)
Definition wait_for {A} (select : Event -> option A) (timeout : Z)
    (check : A -> bool) : M World (option A) :=
  fun w =>
    match await_event select check (clock w) (clock w + timeout) (inbox w) with
    | (Some (t, a), rest) => (Ok (Some a), set_inbox rest (set_clock t w))
    | (None, rest) =>
        (Ok None, set_inbox rest (set_clock (clock w + timeout) w))
    end.

Definition interaction (ev : Event) : option Interaction :=
  match ev with
  | EvInteraction inter => Some inter
  | _ => None
  end.

Definition reaction_add (ev : Event) : option (Emojis.reaction * Z * User) :=
  match ev with
  | EvReactionAdd e m u => Some (e, m, u)
  | _ => None
  end.

(** [asyncio.sleep(ms)] *)
Definition sleep (ms : Z) : M World unit :=
  St.modify (fun w => set_clock (clock w + ms) w).
End Discord.

(** The [random] module, fed by the world's entropy. *)
Module Random.
Definition draw : M World Z :=
  fun w =>
    match entropy w with
    | [] => (Ok 0, w)
    | r :: rs => (Ok r, mkWorld (clock w) (inbox w) rs (outbox w) (next_id w))
    end.

(** [random.random()], in thousandths: a number in [0, 1000). *)
Definition random : M World Z :=
  (r <~ draw ;; St.ret (r mod 1000))%st.

(** [random.choice(seq)]; an empty sequence raises [IndexError]. *)
Definition choice {A} (l : list A) : M World A :=
  match l with
  | [] => St.raise IndexError
  | _ :: _ =>
      (r <~ draw ;;
       St.lift (getitem l (r mod Z.of_nat (length l))))%st
  end.
End Random.

Record Context := mkContext {
  ctx_author : User;
  ctx_channel : Z;
  ctx_me : User;
  ctx_guild : bool          (* the command was invoked in a guild *)
}.

(** What [get_move] returns: [TimedOut] is the tuple [(True, None, None)],
    [Move pos inter] the tuple [(False, pos, inter)]. *)
Inductive MoveOutcome :=
| TimedOut
| Move (pos : Z) (inter : option Interaction).

(** ** Player *)

Module Player.
Record t := mk { user : User; ctx : Context; symbol : Emojis.t }.

(** Check does user who reacted is user who we want, message is board and
    emoji is in board values. *)
Definition check_for_move (msg : Z) (inter : Interaction) : bool :=
  negb (existsb id
    [ negb (inter_is_component inter);
      negb (String.prefix INTERACTION_ID_PREFIX (inter_custom_id inter));
      (* inter.user.id != self.user.id, *)
      negb (inter_message inter =? msg) ]).

Definition not_your_turn : Text :=
  [Txt "Its not your turn yet, or you aren't playing this game!"].

(** [inter.data["custom_id"][len(INTERACTION_ID_PREFIX):]] *)
Definition position_of (inter : Interaction) : result Z :=
  let s := inter_custom_id inter in
  let n := String.length INTERACTION_ID_PREFIX in
  py_int (String.substring n (String.length s - n) s).

(** The [while True] loop of [get_move], with the scan of [wait_for] run in
    place: each round is a wait begun at [start] with a deadline of its own,
    [start + TIMEOUT]. An interaction of another user is answered and the
    next round begins when it arrived. The components are the answers sent,
    the outcome, the time reached and the events still to come. *)
Fixpoint get_move_loop (self : t) (msg : Z) (start : Z)
    (pending : list (Z * Event))
  : list Outgoing * result MoveOutcome * Z * list (Z * Event) :=
  match pending with
  | [] => ([], Ok TimedOut, start + TIMEOUT, [])
  | (t, ev) :: rest =>
      if t <? start then get_move_loop self msg start rest
      else if start + TIMEOUT <=? t
      then ([], Ok TimedOut, start + TIMEOUT, pending)
      else match Discord.interaction ev with
           | Some inter =>
               if check_for_move msg inter then
                 if negb (user_id (inter_user inter) =? user_id (user self))
                 then
                   let '(out, r, t', rest') :=
                     get_move_loop self msg t rest in
                   (Respond inter not_your_turn true :: out, r, t', rest')
                 else
                   ([], Res.bind (position_of inter)
                          (fun pos => Ok (Move pos (Some inter))), t, rest)
               else get_move_loop self msg start rest
           | None => get_move_loop self msg start rest
           end
  end.

(** Get move from user. *)
Definition get_move (self : t) (board : Board) (msg : Z)
  : M World MoveOutcome :=
  fun w =>
    let '(out, r, t, rest) := get_move_loop self msg (clock w) (inbox w) in
    (r, mkWorld t rest (entropy w) (outbox w ++ out) (next_id w)).
End Player.

(** ** AI *)

Module AI.
Record t := mk { user : User; symbol : Emojis.t }.

(** [[i for i, emoji in board.items() if emoji not in (o_square, x_square)]] *)
Definition possible_moves (board : Board) : list Z :=
  map fst
    (List.filter
       (fun ie => negb (emoji_in (snd ie) Emojis.o_square Emojis.x_square))
            (Dict.items board)).

(** The inner loop: the first move that makes [check_win] hold for
    [symbol]. *)
Fixpoint winning_move (symbol : Emojis.t) (moves : list Z) (board : Board)
  : result (option Z) :=
  match moves with
  | [] => Ok None
  | move :: rest =>
      let board_copy := Dict.set move symbol (Dict.copy board) in
      (win <~ check_win board_copy ;;
       if fst win then Ok (Some move)
       else winning_move symbol rest board)%res
  end.

(** The outer loop over the symbols. *)
Fixpoint first_winning_move (symbols : list Emojis.t) (moves : list Z)
    (board : Board) : result (option Z) :=
  match symbols with
  | [] => Ok None
  | symbol :: rest =>
      (found <~ winning_move symbol moves board ;;
       match found with
       | Some move => Ok (Some move)
       | None => first_winning_move rest moves board
       end)%res
  end.

Definition in_list (i : Z) (l : list Z) : bool := existsb (Z.eqb i) l.

Definition open_corners (moves : list Z) : list Z :=
  List.filter (fun i => in_list i [1; 3; 7; 9]) moves.

Definition open_edges (moves : list Z) : list Z :=
  List.filter (fun i => in_list i [2; 4; 6; 8]) moves.

(** Get move from AI. *)
Definition get_move (board : Board) (msg : Z) : M World MoveOutcome :=
  (let possible_moves := possible_moves board in
   (* give the ai some artifical delay *)
   r <~ Random.random ;;
   Discord.sleep (r * 3 / 2) ;;;
   found <~ St.lift
     (first_winning_move [Emojis.o_square; Emojis.x_square]
                         possible_moves board) ;;
   match found with
   | Some move => St.ret (Move move None)
   | None =>
       let open_corners := open_corners possible_moves in
       if (0 <? Z.of_nat (length open_corners)) then
         (move <~ Random.choice open_corners ;; St.ret (Move move None))
       else if in_list 5 possible_moves then
         St.ret (Move 5 None)
       else
         let open_edges := open_edges possible_moves in
         (move <~ Random.choice open_edges ;; St.ret (Move move None))
   end)%st.
End AI.

(** The two kinds of participant a game holds ([Union[Player, AI]]). *)
Inductive Participant :=
| Human (p : Player.t)
| Computer (a : AI.t).

Definition participant_user (p : Participant) : User :=
  match p with
  | Human h => Player.user h
  | Computer a => AI.user a
  end.

Definition participant_symbol (p : Participant) : Emojis.t :=
  match p with
  | Human h => Player.symbol h
  | Computer a => AI.symbol a
  end.

(** Dispatch of [self.current.get_move(self.board, board)]. *)
Definition participant_get_move (p : Participant) (board : Board) (msg : Z)
  : M World MoveOutcome :=
  match p with
  | Human h => Player.get_move h board msg
  | Computer _ => AI.get_move board msg
  end.

(** [str(player)]: the mention of the user. *)
Definition participant_str (p : Participant) : Frag :=
  Mention (participant_user p).

(** [f"{x}"] for an optional participant: [None] prints as its name. *)
Definition optional_str (p : option Participant) : Frag :=
  match p with
  | Some q => participant_str q
  | None => Txt "None"
  end.

(** ** Game *)

Inductive ButtonStyle := grey | blurple | green.

Record Button := mkButton {
  btn_style : ButtonStyle;
  btn_emoji : Emojis.t;
  btn_row : Z;
  btn_custom_id : string;
  btn_disabled : bool
}.

(** How an iteration of the turn loop ends. *)
Inductive Flow := Continue | Break | Return.

Module Game.
Record t := mk {
  players : list Participant;
  ctx : Context;
  channel : Z;
  board : Board;
  children : list Button;
  current : Participant;
  next : Participant;
  winner : option Participant;
  loser : option Participant;
  over : bool;
  canceled : bool;
  draw : bool
}.

Definition set_board (b : Board) (g : t) : t :=
  mk (players g) (ctx g) (channel g) b (children g) (current g) (next g)
     (winner g) (loser g) (over g) (canceled g) (draw g).
Definition set_children (c : list Button) (g : t) : t :=
  mk (players g) (ctx g) (channel g) (board g) c (current g) (next g)
     (winner g) (loser g) (over g) (canceled g) (draw g).
Definition set_turn (cur nxt : Participant) (g : t) : t :=
  mk (players g) (ctx g) (channel g) (board g) (children g) cur nxt
     (winner g) (loser g) (over g) (canceled g) (draw g).
Definition set_winner (w l : option Participant) (g : t) : t :=
  mk (players g) (ctx g) (channel g) (board g) (children g) (current g)
     (next g) w l (over g) (canceled g) (draw g).
Definition set_over (b : bool) (g : t) : t :=
  mk (players g) (ctx g) (channel g) (board g) (children g) (current g)
     (next g) (winner g) (loser g) b (canceled g) (draw g).
Definition set_canceled (b : bool) (g : t) : t :=
  mk (players g) (ctx g) (channel g) (board g) (children g) (current g)
     (next g) (winner g) (loser g) (over g) b (draw g).
Definition set_draw (b : bool) (g : t) : t :=
  mk (players g) (ctx g) (channel g) (board g) (children g) (current g)
     (next g) (winner g) (loser g) (over g) (canceled g) b.

(** [Game(players, ctx)] *)
Definition init (players : list Participant) (ctx : Context) : result t :=
  (let board := Dict.fromkeys (range 1 10) Emojis.empty_placeholder in
   (* add the buttons *)
   let children :=
     map (fun kv =>
            mkButton grey (snd kv) ((fst kv - 1) / 3)
                     (INTERACTION_ID_PREFIX +:+ py_str (fst kv)) false)
         (Dict.items board) in
   current <~ getitem players 0 ;;
   next <~ getitem players 1 ;;
   Ok (mk players ctx (ctx_channel ctx) board children current next
          None None false false false))%res.

Definition update (f : t -> t) : M (t * World) unit :=
  St.on_fst (St.modify f).

Definition CONFIRMATION_MESSAGE (opponent requester : User) : Text :=
  [ Mention opponent; Txt ", "; Mention requester;
    Txt (" wants to play Tic-Tac-Toe against you." +:+ newline
         +:+ "React to this message with ");
    Reaction Emojis.confirmation; Txt " to accept or with ";
    Reaction Emojis.decline; Txt " to decline." ].

(** Check is user who reacted from who this was requested, message is
    confirmation and emoji is valid. *)
Definition confirm_check (confirm_message : Z) (opponent : User)
    (ev : Emojis.reaction * Z * User) : bool :=
  let '(emoji, message, user) := ev in
  (Emojis.reaction_eqb emoji Emojis.confirmation
   || Emojis.reaction_eqb emoji Emojis.decline)
  && (message =? confirm_message)
  && user_eqb user opponent.

(** Ask does user want to play TicTacToe against requester. The result is
    whether the game is accepted and, when it is not, the reason. *)
Definition get_confirmation : M (t * World) (bool * option Text) :=
  (self <~ St.on_fst St.get ;;
   opponent <~ St.lift (getitem (players self) 1) ;;
   requester <~ St.lift (getitem (players self) 0) ;;
   confirm_message <~ St.on_snd
     (Discord.send (channel self)
        (CONFIRMATION_MESSAGE (participant_user opponent)
                              (participant_user requester))) ;;
   got <~ St.on_snd
     (Discord.wait_for Discord.reaction_add 60000
        (confirm_check confirm_message (participant_user opponent))) ;;
   match got with
   | None =>
       update (set_over true) ;;;
       update (set_canceled true) ;;;
       St.ret (false, Some [Txt "Running out of time... Cancelled game."])
   | Some (emoji, _, _) =>
       if Emojis.reaction_eqb emoji Emojis.confirmation
       then St.ret (true, None)
       else
         update (set_over true) ;;;
         update (set_canceled true) ;;;
         St.ret (false, Some [Txt "User declined"])
   end)%st.

(** Disable all components in this view. *)
Definition disable (g : t) : t :=
  set_children
    (map (fun b => mkButton (btn_style b) (btn_emoji b) (btn_row b)
                            (btn_custom_id b) true)
         (children g)) g.

(** Get formatted tic-tac-toe board for message. *)
Definition format_board (g : t) : result Text :=
  let board := Dict.values (board g) in
  let fix rows (lines : list Z) : result Text :=
    match lines with
    | [] => Ok []
    | line :: more =>
        (a <~ getitem board line ;;
         b <~ getitem board (line + 1) ;;
         c <~ getitem board (line + 2) ;;
         tl <~ rows more ;;
         Ok ([Emoji a; Txt " "; Emoji b; Txt " "; Emoji c]
             ++ match more with [] => [] | _ => [Txt newline] end
             ++ tl))%res
    end in
  rows (range_step 0 (Z.of_nat (length board)) 3).

(** The buttons once a line has won: all are disabled, those of the line
    turn green, the other marked ones blurple. *)
Definition mark_win (line : Line) (buttons : list Button) : list Button :=
  let '(a, b, c) := line in
  imap (fun i button =>
          let pos := Z.of_nat i + 1 in
          let style :=
            if AI.in_list pos [a; b; c] then green
            else if negb (Emojis.eqb (btn_emoji button) Emojis.empty_placeholder)
                 then blurple
                 else btn_style button in
          mkButton style (btn_emoji button) (btn_row button)
                   (btn_custom_id button) true)
       buttons.

(** The part of an iteration of [play] that applies the move [pos] of the
    current participant: the cell and its button are written, then the
    board is checked for a win. *)
Definition apply_move (pos : Z) : M (t * World) Flow :=
  (self <~ St.on_fst St.get ;;
   let cur := current self in
   update (fun g => set_board (Dict.set pos (participant_symbol cur)
                                        (board g)) g) ;;;
   self <~ St.on_fst St.get ;;
   button <~ St.lift (getitem (children self) (pos - 1)) ;;
   let button :=
     mkButton blurple (participant_symbol cur) (btn_row button)
              (btn_custom_id button) true in
   children' <~ St.lift (setitem (children self) (pos - 1) button) ;;
   update (set_children children') ;;;
   self <~ St.on_fst St.get ;;
   win <~ St.lift (check_win (board self)) ;;
   match win with
   | (true, Some line) =>
       update (fun g => set_children (mark_win line (children g)) g) ;;;
       update (fun g => set_winner (Some (current g)) (Some (next g)) g) ;;;
       St.on_snd
         (Discord.send (ctx_channel (ctx self))
            [Txt ":tada: "; participant_str cur;
             Txt " won this game! :tada:"]) ;;;
       St.ret Break
   | (true, None) => St.raise TypeError   (* [i+1 in None] *)
   | (false, _) =>
       update (fun g => set_turn (next g) (current g) g) ;;;
       St.ret Continue
   end)%st.

(** One iteration of the loop of [play]. *)
Definition play_turn (board_msg : Z) : M (t * World) Flow :=
  (self <~ St.on_fst St.get ;;
   let cur := current self in
   let mention := Mention (participant_user cur) in
   match cur with
   | Human _ =>
       (St.on_snd
          (Discord.send (ctx_channel (ctx self))
             [mention; Txt ", it's your turn! Click a button to take your go."])
        ;;; St.ret tt)
   | Computer _ => St.ret tt
   end ;;;
   outcome <~ St.on_snd (participant_get_move cur (board self) board_msg) ;;
   match outcome with
   | TimedOut =>
       St.on_snd
         (Discord.send (ctx_channel (ctx self))
            [mention; Txt " ran out of time. Canceling game."]) ;;;
       update (set_over true) ;;;
       update (set_canceled true) ;;;
       update disable ;;;
       St.ret Return
   | Move pos inter => apply_move pos
   end)%st.

(** The [for] loop of [play], over the [n] iterations that are left. *)
Fixpoint play_loop (n : nat) (board_msg : Z) : M (t * World) Flow :=
  match n with
  | O => St.ret Continue
  | S n' =>
      (flow <~ play_turn board_msg ;;
       match flow with
       | Continue => play_loop n' board_msg
       | Break => St.ret Break
       | Return => St.ret Return
       end)%st
  end.

(** Start and handle game. *)
Definition play : M (t * World) unit :=
  (self <~ St.on_fst St.get ;;
   St.on_snd
     (Discord.send (ctx_channel (ctx self))
        [Txt "It's time for the game! Let's begin."]) ;;;
   board_msg <~ St.on_snd
     (Discord.send (ctx_channel (ctx self)) [Txt "**Tic Tac Toe**"]) ;;
   flow <~ play_loop (length (board self)) board_msg ;;
   match flow with
   | Return => St.ret tt
   | _ =>
       self <~ St.on_fst St.get ;;
       match winner self with
       | None =>
           update (set_draw true) ;;;
           St.on_snd
             (Discord.send (ctx_channel (ctx self)) [Txt "It's a DRAW!"]) ;;;
           St.ret tt
       | Some _ => St.ret tt
       end ;;;
       update (set_over true)
   end)%st.
End Game.

(** ** The cog and its registry of games *)

Module TicTacToe.
Record t := mk { games : list Game.t }.

(** [TicTacToe()] *)
Definition init : t := mk [].

Definition running (cog : t) : list Game.t :=
  List.filter (fun game => negb (Game.over game)) (games cog).

(** [user in (player.user for player in game.players)] *)
Definition plays_in (user : User) (game : Game.t) : bool :=
  existsb (fun player => user_eqb user (participant_user player))
          (Game.players game).

(** Check is channel where command will be invoked free. *)
Definition is_channel_free (cog : t) (ctx : Context) : bool :=
  forallb (fun game => negb (Game.channel game =? ctx_channel ctx))
          (running cog).

(** Check is requester not already in any game. *)
Definition is_requester_free (cog : t) (ctx : Context) : bool :=
  forallb (fun game => negb (plays_in (ctx_author ctx) game)) (running cog).

(** The local variable [game] and the entry of [self.games] are one object:
    a method run on the game at [idx] updates the registry's entry. *)
Definition on_game {A} (idx : nat) (m : M (Game.t * World) A)
  : M (t * World) A :=
  fun s =>
    match games (fst s) !! idx with
    | Some g =>
        let '(r, (g', w')) := m (g, snd s) in
        (r, (mk (<[idx := g']> (games (fst s))), w'))
    | None => (Raise IndexError, s)
    end.

Definition send (ctx : Context) (content : Text) : M (t * World) unit :=
  (St.on_snd (Discord.send (ctx_channel ctx) content) ;;; St.ret tt)%st.

(** The body of the command [tictactoe]. *)
Definition tic_tac_toe (ctx : Context) (opponent : option User)
  : M (t * World) unit :=
  (self <~ St.on_fst St.get ;;
   if match opponent with
      | Some o => user_eqb o (ctx_author ctx)
      | None => false
      end
   then send ctx [Txt "You can't play against yourself."]
   else if match opponent with
           | Some o =>
               negb (forallb (fun g => negb (plays_in o g)) (running self))
           | None => false
           end
   then send ctx [Txt "Opponent is already in game."]
   else
     game <~ St.lift
       (match opponent with
        | None =>
            Game.init
              [ Human (Player.mk (ctx_author ctx) ctx Emojis.x_square);
                Computer (AI.mk (ctx_me ctx) Emojis.o_square) ] ctx
        | Some o =>
            Game.init
              [ Human (Player.mk (ctx_author ctx) ctx Emojis.x_square);
                Human (Player.mk o ctx Emojis.o_square) ] ctx
        end) ;;
     St.on_fst (St.modify (fun cog => mk (games cog ++ [game]))) ;;;
     let idx := length (games self) in
     match opponent with
     | Some o =>
         if user_bot o   (* check whether the opponent is a bot or not *)
         then send ctx [Txt "You can't play Tic-Tac-Toe with bots!"]
         else
           answer <~ on_game idx Game.get_confirmation ;;
           let '(confirmed, msg) := answer in
           if negb confirmed then
             match msg with
             | Some reason => send ctx reason
             | None => St.ret tt
             end
           else on_game idx Game.play
     | None => on_game idx Game.play
     end)%st.

(** The command with its checks. *)
Definition invoke_tic_tac_toe (ctx : Context) (opponent : option User)
  : M (t * World) unit :=
  (self <~ St.on_fst St.get ;;
   if is_requester_free self ctx && is_channel_free self ctx && ctx_guild ctx
   then tic_tac_toe ctx opponent
   else St.raise CheckFailure)%st.

(** The line of one game in the history, if it is listed. *)
Definition log_line (i : nat) (game : Game.t) : result (option Text) :=
  if Game.over game && negb (Game.canceled game) then
    if Game.draw game then
      (p0 <~ getitem (Game.players game) 0 ;;
       p1 <~ getitem (Game.players game) 1 ;;
       Ok (Some [ Txt ("**#" +:+ py_str (Z.of_nat i + 1) +:+ "**: ");
                  participant_str p0; Txt " vs "; participant_str p1;
                  Txt " (draw)" ]))%res
    else
      Ok (Some [ Txt ("**#" +:+ py_str (Z.of_nat i + 1) +:+ "**: ");
                 optional_str (Game.winner game); Txt " :trophy: vs ";
                 optional_str (Game.loser game) ])
  else Ok None.

Fixpoint log_lines (i : nat) (games : list Game.t) : result (list Text) :=
  match games with
  | [] => Ok []
  | game :: rest =>
      (line <~ log_line i game ;;
       lines <~ log_lines (S i) rest ;;
       Ok (match line with Some l => l :: lines | None => lines end))%res
  end.

(** Show most recent tic-tac-toe games.

    Modelled from the spec: [LinePaginator] of [bot.utils.pagination] is not
    part of the sources at hand; the lines are emitted as one embed, in the
    order of the list. *)
Definition tic_tac_toe_logs (ctx : Context) : M (t * World) unit :=
  (self <~ St.on_fst St.get ;;
   if Z.of_nat (length (games self)) <? 1
   then send ctx [Txt "No recent games."]
   else
     log_games <~ St.lift (log_lines 0 (games self)) ;;
     St.on_snd
       (Discord.send_embed (ctx_channel ctx)
          [Txt "Most recent Tic Tac Toe games"]
          (concat (map (fun l => l ++ [Txt newline]) log_games))) ;;;
     St.ret tt)%st.

Definition description (game : Game.t) : result Text :=
  if Game.draw game then
    (p0 <~ getitem (Game.players game) 0 ;;
     p1 <~ getitem (Game.players game) 1 ;;
     b <~ Game.format_board game ;;
     Ok ([ participant_str p0; Txt " vs "; participant_str p1;
           Txt (" (draw)" +:+ newline +:+ newline) ] ++ b))%res
  else
    (b <~ Game.format_board game ;;
     Ok ([ optional_str (Game.winner game); Txt " :trophy: vs ";
           optional_str (Game.loser game); Txt (newline +:+ newline) ]
         ++ b))%res.

(** The end of [show_tic_tac_toe_board]: the embed of the game found. *)
Definition show_game (ctx : Context) (game_id : Z) (game : Game.t)
  : M (t * World) unit :=
  (description <~ St.lift (description game) ;;
   St.on_snd
     (Discord.send_embed (ctx_channel ctx)
        [Txt ("Match #" +:+ py_str game_id +:+ " Game Board")]
        description) ;;;
   St.ret tt)%st.

(** View game board by ID. *)
Definition show_tic_tac_toe_board (ctx : Context) (game_id : Z)
  : M (t * World) unit :=
  (self <~ St.on_fst St.get ;;
   if Z.of_nat (length (games self)) <? game_id
   then send ctx [Txt "Game don't exist."]
   else
     game <~ St.lift (getitem (games self) (game_id - 1)) ;;
     show_game ctx game_id game)%st.
End TicTacToe.

(** The commands a user can issue, and a run of the cog over a sequence of
    them. Every command is run to its end before the next begins, each in
    the world it finds; an exception ends the command and leaves the cog as
    it is at that point. *)
Inductive Command :=
| CmdTicTacToe (ctx : Context) (opponent : option User)
| CmdHistory (ctx : Context)
| CmdShow (ctx : Context) (game_id : Z).

Definition invoke (c : Command) : M (TicTacToe.t * World) unit :=
  match c with
  | CmdTicTacToe ctx opponent => TicTacToe.invoke_tic_tac_toe ctx opponent
  | CmdHistory ctx => TicTacToe.tic_tac_toe_logs ctx
  | CmdShow ctx game_id => TicTacToe.show_tic_tac_toe_board ctx game_id
  end.

Definition step (cog : TicTacToe.t) (cw : Command * World) : TicTacToe.t :=
  fst (snd (invoke (fst cw) (cog, snd cw))).

Definition run (cog : TicTacToe.t) (trace : list (Command * World))
  : TicTacToe.t :=
  fold_left step trace cog.

(** ** Vocabulary of the specification *)

(** A board that holds each of the nine positions once and nothing else,
    in whatever order; [Game] creates and keeps its board so. *)
Definition full_board (b : Board) : Prop :=
  NoDup (Dict.keys b) /\ forall k, In k (Dict.keys b) <-> 1 <= k <= 9.

(** All three cells of a line hold one and the same non-empty mark. *)
Definition line_complete (b : Board) (l : Line) : Prop :=
  let '(p, q, r) := l in
  exists m, m <> Emojis.empty_placeholder
            /\ Dict.find p b = Some m
            /\ Dict.find q b = Some m
            /\ Dict.find r b = Some m.

(** The scan order of the specification: rows top-to-bottom, then columns
    left-to-right, then the two diagonals. *)
Definition rows : list Line :=
  map (fun r => (3 * r + 1, 3 * r + 2, 3 * r + 3)) [0; 1; 2].
Definition columns : list Line :=
  map (fun c => (c + 1, c + 4, c + 7)) [0; 1; 2].
Definition diagonals : list Line := [(1, 5, 9); (3, 5, 7)].
Definition scan_order : list Line := rows ++ columns ++ diagonals.

(** [x] is the first element of [l] that satisfies [P]. *)
Definition first_in {A} (P : A -> Prop) (l : list A) (x : A) : Prop :=
  exists before after,
    l = before ++ x :: after /\ P x /\ Forall (fun y => ~ P y) before.

Definition on_board (l : Line) : Prop :=
  let '(p, q, r) := l in 1 <= p <= 9 /\ 1 <= q <= 9 /\ 1 <= r <= 9.




(** The cells of a line. *)
Definition cells (l : Line) : list Z := let '(p, q, r) := l in [p; q; r].

(** The cell [m] is empty and lies on a line whose other cells hold [sym]:
    a move of [sym] to [m] completes that line. *)
Definition completes (b : Board) (sym : Emojis.t) (m : Z) : Prop :=
  Dict.find m b = Some Emojis.empty_placeholder
  /\ exists l, In l winning_combinations
               /\ In m (cells l)
               /\ forall k, In k (cells l) -> k <> m -> Dict.find k b = Some sym.

(** No line of the board is complete: the game is still on. *)
Definition undecided (b : Board) : Prop :=
  forall l, In l winning_combinations -> ~ line_complete b l.

(** The pair of participants in turn is kept or swapped. *)
Definition same_pair (g g' : Game.t) : Prop :=
  (Game.current g' = Game.current g /\ Game.next g' = Game.next g)
  \/ (Game.current g' = Game.next g /\ Game.next g' = Game.current g).

(** What holds of the game when a turn, or a run of turns, has ended in
    [flow]. *)
Definition turn_post (g : Game.t) (flow : Flow) (g' : Game.t) : Prop :=
  match flow with
  | Continue =>
      Game.winner g' = Game.winner g /\ Game.loser g' = Game.loser g
      /\ Game.canceled g' = Game.canceled g /\ Game.over g' = Game.over g
  | Break =>
      Game.canceled g' = Game.canceled g /\ Game.over g' = Game.over g
      /\ Game.winner g' = Some (Game.current g')
      /\ Game.loser g' = Some (Game.next g')
      /\ exists line, check_win (Game.board g') = Ok (true, Some line)
  | Return =>
      Game.over g' = true /\ Game.canceled g' = true
      /\ Game.winner g' = Game.winner g /\ Game.loser g' = Game.loser g
  end.


(** The marks that a text shows, in order. *)
Definition emojis_of (text : Text) : list Emojis.t :=
  omap (fun f => match f with Emoji e => Some e | _ => None end) text.

(** The click of [user] on the button [btn] of the message [msg]. *)
Definition click_on (btn : Button) (user : User) (msg : Z) : Interaction :=
  mkInteraction true (btn_custom_id btn) user msg.

(** ** Concrete inputs *)

Module Sample.
Definition alice : User := mkUser 1 false.
Definition bob : User := mkUser 2 false.
Definition lancebot : User := mkUser 99 true.

(** Alice invokes the command in channel 7 of a guild. *)
Definition ctx : Context := mkContext alice 7 lancebot true.

Definition alice_player : Player.t := Player.mk alice ctx Emojis.x_square.
Definition bob_player : Player.t := Player.mk bob ctx Emojis.o_square.
Definition X : Participant := Human alice_player.
Definition O : Participant := Human bob_player.

(** A click of [user] on the button [pos] of the message [msg]. *)
Definition click (user : User) (msg pos : Z) : Event :=
  EvInteraction
    (mkInteraction true (INTERACTION_ID_PREFIX +:+ py_str pos) user msg).

(** A world at time 0 with the given events to come. *)
Definition world (events : list (Z * Event)) : World :=
  mkWorld 0 events [] [] 100.

(** The board with the given marks at the positions 1, 2, ... *)
Definition board_of (marks : list Emojis.t) : Board :=
  zip (range 1 (1 + Z.of_nat (length marks))) marks.

(** A game of Alice (X) against Bob (O) on the given board, with the
    buttons as [play] leaves them, and [cur] to move. *)
Definition game_on (b : Board) (cur nxt : Participant) : Game.t :=
  Game.mk [X; O] ctx (ctx_channel ctx) b
    (map (fun kv =>
            if Emojis.eqb (snd kv) Emojis.empty_placeholder
            then mkButton grey (snd kv) ((fst kv - 1) / 3)
                          (INTERACTION_ID_PREFIX +:+ py_str (fst kv)) false
            else mkButton blurple (snd kv) ((fst kv - 1) / 3)
                          (INTERACTION_ID_PREFIX +:+ py_str (fst kv)) true)
         b)
    cur nxt None None false false false.

(** X holds the top row: the example of the specification after the moves
    X:1 O:5 X:2 O:8 X:3. *)
Definition top_row : Board :=
  board_of [ Emojis.x_square; Emojis.x_square; Emojis.x_square;
             Emojis.empty_placeholder; Emojis.o_square;
             Emojis.empty_placeholder;
             Emojis.empty_placeholder; Emojis.o_square;
             Emojis.empty_placeholder ].

(** X has taken cell 1 and it is O's turn. *)
Definition x_on_1 : Game.t :=
  game_on (board_of [ Emojis.x_square; Emojis.empty_placeholder;
                      Emojis.empty_placeholder; Emojis.empty_placeholder;
                      Emojis.empty_placeholder; Emojis.empty_placeholder;
                      Emojis.empty_placeholder; Emojis.empty_placeholder;
                      Emojis.empty_placeholder ]) O X.

(** X holds 1 and 2, O holds 4 and 5: each side can complete a row, X at 3
    and O at 6. *)
Definition both_threaten : Board :=
  board_of
    [ Emojis.x_square; Emojis.x_square; Emojis.empty_placeholder;
      Emojis.o_square; Emojis.o_square; Emojis.empty_placeholder;
      Emojis.empty_placeholder; Emojis.empty_placeholder;
      Emojis.empty_placeholder ].

(** Only the edge 6 is empty, and no mark placed there completes a line. *)
Definition edge_left : Board :=
  board_of
    [ Emojis.x_square; Emojis.o_square; Emojis.x_square;
      Emojis.o_square; Emojis.x_square; Emojis.empty_placeholder;
      Emojis.o_square; Emojis.x_square; Emojis.o_square ].
(** The clicks X:1 O:2 X:3 O:4 X:5 O:6 X:7 O:8 X:9 on the board message,
    which is the second message sent in [world]. *)
Definition nine_clicks : World :=
  world [ (1000, click alice 101 1); (2000, click bob 101 2);
          (3000, click alice 101 3); (4000, click bob 101 4);
          (5000, click alice 101 5); (6000, click bob 101 6);
          (7000, click alice 101 7); (8000, click bob 101 8);
          (9000, click alice 101 9) ].

(** The game of Alice against Bob as [Game(players, ctx)] creates it. *)
Definition fresh_game : Game.t :=
  game_on (Dict.fromkeys (range 1 10) Emojis.empty_placeholder) X O.
(** X holds 2 and 3, O holds 5, the corner 1 is empty: only X can complete
    a line in one move, at 1. *)
Definition x_threatens : Board :=
  board_of
    [ Emojis.empty_placeholder; Emojis.x_square; Emojis.x_square;
      Emojis.empty_placeholder; Emojis.o_square; Emojis.empty_placeholder;
      Emojis.empty_placeholder; Emojis.empty_placeholder;
      Emojis.empty_placeholder ].
End Sample.

(** * Part II: properties *)

(** ** Emojis and dictionaries *)

Lemma emoji_eqb_eq a b : Emojis.eqb a b = true <-> a = b.
Proof. destruct a, b; simpl; split; congruence. Qed.

Lemma emoji_eqb_refl a : Emojis.eqb a a = true.
Proof. by destruct a. Qed.

Lemma emoji_in_marks m :
  emoji_in m Emojis.x_square Emojis.o_square = true
  <-> m <> Emojis.empty_placeholder.
Proof. destruct m; simpl; split; intros H; done. Qed.

Lemma emoji_in_marks_swap m :
  emoji_in m Emojis.o_square Emojis.x_square
  = emoji_in m Emojis.x_square Emojis.o_square.
Proof. by destruct m. Qed.

Lemma find_set_eq {V} k (v : V) d : Dict.find k (Dict.set k v d) = Some v.
Proof.
  induction d as [|[k' v'] d IH]; simpl.
  - by rewrite Z.eqb_refl.
  - destruct (k =? k') eqn:E; simpl; rewrite E; auto.
Qed.

Lemma find_set_ne {V} k k' (v : V) d :
  k <> k' -> Dict.find k' (Dict.set k v d) = Dict.find k' d.
Proof.
  intros Hne. induction d as [|[k0 v0] d IH]; simpl.
  - destruct (k' =? k) eqn:E; [lia | done].
  - destruct (k =? k0) eqn:E; simpl.
    + destruct (k' =? k0) eqn:E'; [lia | done].
    + by rewrite IH.
Qed.

Lemma find_Some_keys {V} k (d : Dict.t V) :
  is_Some (Dict.find k d) <-> In k (Dict.keys d).
Proof.
  induction d as [|[k' v'] d IH]; simpl.
  - split; [intros [? ?]; done | done].
  - destruct (k =? k') eqn:E.
    + split; [left; lia | eauto].
    + rewrite IH. split; [auto | intros [?|?]; [lia | done]].
Qed.

(** Assigning to a key that is present keeps the keys and their order. *)
Lemma keys_set_present {V} k (v : V) d :
  In k (Dict.keys d) -> Dict.keys (Dict.set k v d) = Dict.keys d.
Proof.
  induction d as [|[k' v'] d IH]; simpl; [done|].
  intros Hin. destruct (k =? k') eqn:E; simpl; [done|].
  f_equal. apply IH. destruct Hin; [lia | done].
Qed.

Lemma length_set_present {V} k (v : V) (d : Dict.t V) :
  In k (Dict.keys d) -> length (Dict.set k v d) = length d.
Proof.
  intros H. apply keys_set_present with (v := v) in H.
  unfold Dict.keys in H. apply (f_equal length) in H.
  by rewrite !length_map in H.
Qed.

Lemma range_1_10 : range 1 10 = [1; 2; 3; 4; 5; 6; 7; 8; 9].
Proof. reflexivity. Qed.

(** The board in the order [Game] creates it. *)
Lemma full_board_ordered b : Dict.keys b = range 1 10 -> full_board b.
Proof.
  intros E. unfold full_board. rewrite E, range_1_10. split.
  - apply NoDup_ListNoDup. repeat constructor; simpl; lia.
  - intros k. simpl. lia.
Qed.

Lemma full_board_in b k : full_board b -> (In k (Dict.keys b) <-> 1 <= k <= 9).
Proof. intros [_ H]. apply H. Qed.

Lemma full_board_NoDup b : full_board b -> NoDup (Dict.keys b).
Proof. by intros [H _]. Qed.

Lemma full_board_find b k :
  full_board b -> 1 <= k <= 9 -> exists m, Dict.find k b = Some m.
Proof.
  intros Hb Hk. apply (full_board_in b k Hb) in Hk.
  apply find_Some_keys in Hk. destruct Hk as [m Hm]. eauto.
Qed.

Lemma full_board_set b k m :
  full_board b -> 1 <= k <= 9 -> full_board (Dict.set k m b).
Proof.
  intros Hb Hk. unfold full_board. rewrite keys_set_present; [done|].
  by apply full_board_in.
Qed.

Lemma full_board_length b : full_board b -> length b = 9%nat.
Proof.
  intros [Hnd Hin].
  assert (Permutation (Dict.keys b) (range 1 10)) as HP.
  { apply NoDup_Permutation; [done | |].
    - rewrite range_1_10. apply NoDup_ListNoDup.
      repeat constructor; simpl; lia.
    - intros k. rewrite !list_elem_of_In, Hin, range_1_10. simpl. lia. }
  apply Permutation_length in HP. unfold Dict.keys in HP.
  by rewrite length_map in HP.
Qed.

(** The board of a new game is full. *)
Lemma init_board_full players ctx g :
  Game.init players ctx = Ok g -> full_board (Game.board g).
Proof.
  unfold Game.init. destruct (getitem players 0); simpl; [|done].
  destruct (getitem players 1); simpl; [|done].
  intros [= <-]. by apply full_board_ordered.
Qed.

(** ** [check_win] *)

Lemma scan_order_eq : winning_combinations = scan_order.
Proof. reflexivity. Qed.

Lemma winning_combinations_on_board : Forall on_board winning_combinations.
Proof. repeat constructor; lia. Qed.

(** On a full board the test of a line raises nothing and decides
    [line_complete]. *)
Lemma combination_wins_spec b l :
  full_board b -> on_board l ->
  exists hit, combination_wins b l = Ok hit
              /\ (hit = true <-> line_complete b l).
Proof.
  intros Hb. destruct l as [[p q] r]. intros (Hp & Hq & Hr).
  destruct (full_board_find b p Hb Hp) as [x Hx].
  destruct (full_board_find b q Hb Hq) as [y Hy].
  destruct (full_board_find b r Hb Hr) as [z Hz].
  unfold combination_wins, line_complete, Dict.get.
  rewrite Hx, Hy, Hz. simpl.
  destruct (Emojis.eqb x y) eqn:Exy; simpl.
  - apply emoji_eqb_eq in Exy as ->.
    destruct (Emojis.eqb y z) eqn:Eyz; simpl.
    + apply emoji_eqb_eq in Eyz as ->. eexists; split; [done|].
      rewrite emoji_in_marks. split.
      * intros Hz'. exists z. auto.
      * intros (m & Hm & [= ->] & _). done.
    + exists false. split; [done|]. split; [done|].
      intros (m & _ & [= ->] & _ & [= ->]).
      by rewrite emoji_eqb_refl in Eyz.
  - exists false. split; [done|]. split; [done|].
    intros (m & _ & [= ->] & [= ->] & _).
    by rewrite emoji_eqb_refl in Exy.
Qed.

Lemma first_in_unique {A} (P : A -> Prop) l x y :
  first_in P l x -> first_in P l y -> x = y.
Proof.
  intros (b1 & a1 & -> & Hx & H1) (b2 & a2 & E & Hy & H2).
  revert b2 E H2. induction b1 as [|u b1 IH]; intros [|v b2] E H2;
    simpl in E.
  - congruence.
  - injection E as -> _. by inversion H2.
  - injection E as -> _. by inversion H1.
  - injection E as -> E. inversion H1; inversion H2; subst. eauto.
Qed.

Lemma first_in_cons_hit {A} (P : A -> Prop) x l : P x -> first_in P (x :: l) x.
Proof. intros H. exists [], l. auto. Qed.

Lemma first_in_cons_miss {A} (P : A -> Prop) x y l :
  ~ P x -> first_in P l y -> first_in P (x :: l) y.
Proof.
  intros H (b & a & -> & Hy & Hb). exists (x :: b), a. auto.
Qed.

Lemma first_in_In {A} (P : A -> Prop) l x : first_in P l x -> In x l /\ P x.
Proof.
  intros (b & a & -> & Hx & _). split; [|done].
  apply in_or_app. right. by left.
Qed.

(** The loop returns the first complete line, or reports none when no line
    is complete. *)
Lemma check_win_loop_cases combos b :
  full_board b -> Forall on_board combos ->
  (Forall (fun l => ~ line_complete b l) combos
   /\ check_win_loop combos b = Ok (false, None))
  \/ (exists l, first_in (line_complete b) combos l
                /\ check_win_loop combos b = Ok (true, Some l)).
Proof.
  intros Hb. induction 1 as [|l combos Hl Hrest IH]; simpl.
  - left. auto.
  - destruct (combination_wins_spec b l Hb Hl) as (hit & -> & Hhit). simpl.
    destruct hit.
    + right. exists l. split; [|done].
      apply first_in_cons_hit. by apply Hhit.
    + assert (~ line_complete b l) as Hno
        by (intros Hc; apply Hhit in Hc; done).
      destruct IH as [[Hall E] | (l' & Hfirst & E)].
      * left. auto.
      * right. exists l'. split; [|done]. by apply first_in_cons_miss.
Qed.

(** C1. For every board holding a mark at each of the nine positions,
    [check_win] returns a winning triple iff some row, column or diagonal
    holds three equal non-empty marks, and the triple returned is the first
    complete one in the scan order rows, columns, diagonals; otherwise it
    returns [(False, None)]. *)
Theorem check_win_first_complete_line (b : Board) :
  full_board b ->
  (forall l, check_win b = Ok (true, Some l)
             <-> first_in (line_complete b) scan_order l)
  /\ ((exists l, check_win b = Ok (true, Some l))
      <-> exists l, In l scan_order /\ line_complete b l)
  /\ (check_win b = Ok (false, None)
      <-> ~ exists l, In l scan_order /\ line_complete b l).
Proof.
  intros Hb. unfold check_win. rewrite <- scan_order_eq.
  pose proof (check_win_loop_cases winning_combinations b Hb
                winning_combinations_on_board) as Hcases.
  assert (forall l, check_win_loop winning_combinations b = Ok (true, Some l)
                    <-> first_in (line_complete b) winning_combinations l)
    as Hfirst.
  { intros l. split.
    - intros E. destruct Hcases as [[_ E'] | (l' & Hl' & E')];
        rewrite E in E'; [done|]. by injection E' as ->.
    - intros Hl. destruct Hcases as [[Hall _] | (l' & Hl' & E')].
      + apply first_in_In in Hl as [Hin Hc].
        rewrite List.Forall_forall in Hall. by destruct (Hall l Hin).
      + by rewrite (first_in_unique _ _ _ _ Hl Hl'). }
  split; [done|]. split.
  - split.
    + intros [l E]. exists l. apply first_in_In. by apply Hfirst.
    + intros (l & Hin & Hc). destruct Hcases as [[Hall _] | (l' & _ & E)].
      * rewrite List.Forall_forall in Hall. by destruct (Hall l Hin).
      * eauto.
  - split.
    + intros E (l & Hin & Hc).
      destruct Hcases as [[Hall _] | (l' & _ & E')].
      * rewrite List.Forall_forall in Hall. by destruct (Hall l Hin).
      * rewrite E in E'. done.
    + intros Hno. destruct Hcases as [[_ E] | (l' & Hl' & _)]; [done|].
      destruct Hno. exists l'. by apply first_in_In.
Qed.

Lemma check_win_first_complete_line_witness :
  first_in (line_complete Sample.top_row) scan_order (1, 2, 3).
Proof.
  destruct (check_win_first_complete_line Sample.top_row
              (full_board_ordered Sample.top_row eq_refl)) as [H _].
  apply H. reflexivity.
Defined.

(** ** Python lists *)

Lemma getitem_nonneg {A} (l : list A) i :
  0 <= i < Z.of_nat (length l) ->
  exists x, getitem l i = Ok x /\ l !! Z.to_nat i = Some x.
Proof.
  intros Hi. unfold getitem.
  destruct (i <? 0) eqn:E0; [lia|].
  destruct (i <? 0) eqn:E1; [lia|].
  destruct (Z.of_nat (length l) <=? i) eqn:E2; [lia|]. simpl.
  destruct (l !! Z.to_nat i) as [x|] eqn:E.
  - eauto.
  - apply lookup_ge_None in E. lia.
Qed.

Lemma getitem_negative {A} (l : list A) i :
  - Z.of_nat (length l) <= i < 0 ->
  exists x, getitem l i = Ok x
            /\ l !! Z.to_nat (i + Z.of_nat (length l)) = Some x.
Proof.
  intros Hi. unfold getitem.
  destruct (i <? 0) eqn:E0; [|lia].
  destruct (i + Z.of_nat (length l) <? 0) eqn:E1; [lia|].
  destruct (Z.of_nat (length l) <=? i + Z.of_nat (length l)) eqn:E2; [lia|].
  simpl. destruct (l !! Z.to_nat (i + Z.of_nat (length l))) as [x|] eqn:E.
  - eauto.
  - apply lookup_ge_None in E. lia.
Qed.

Lemma getitem_out_of_range {A} (l : list A) i :
  i < - Z.of_nat (length l) \/ Z.of_nat (length l) <= i ->
  getitem l i = Raise IndexError.
Proof.
  intros Hi. unfold getitem.
  destruct (i <? 0) eqn:E0.
  - destruct (i + Z.of_nat (length l) <? 0) eqn:E1; [done | lia].
  - destruct (i <? 0) eqn:E1; [done|].
    destruct (Z.of_nat (length l) <=? i) eqn:E2; [done | lia].
Qed.

Lemma setitem_nonneg {A} (l : list A) i x :
  0 <= i < Z.of_nat (length l) ->
  setitem l i x = Ok (<[Z.to_nat i := x]> l).
Proof.
  intros Hi. unfold setitem.
  destruct (i <? 0) eqn:E0; [lia|].
  destruct (i <? 0) eqn:E1; [lia|].
  destruct (Z.of_nat (length l) <=? i) eqn:E2; [lia|]. done.
Qed.

(** ** Applying a move *)

Lemma check_win_total b :
  full_board b ->
  check_win b = Ok (false, None) \/ exists l, check_win b = Ok (true, Some l).
Proof.
  intros Hb.
  destruct (check_win_loop_cases winning_combinations b Hb
              winning_combinations_on_board) as [[_ E] | (l & _ & E)]; eauto.
Qed.

(** C2, as the code has it. On a full board with its nine buttons, applying
    a move to a position from 1 to 9 never fails, whether the cell is taken
    or not: the cell takes the symbol of the participant to move (a mark
    already there is overwritten), every other cell keeps its mark and the
    positions stay the same. *)
Theorem apply_move_writes_cell (g : Game.t) (w : World) (pos : Z) :
  full_board (Game.board g) -> length (Game.children g) = 9%nat ->
  1 <= pos <= 9 ->
  exists flow g' w',
    Game.apply_move pos (g, w) = (Ok flow, (g', w'))
    /\ (flow = Continue \/ flow = Break)
    /\ Game.board g'
       = Dict.set pos (participant_symbol (Game.current g)) (Game.board g)
    /\ Dict.find pos (Game.board g')
       = Some (participant_symbol (Game.current g))
    /\ (forall k, k <> pos ->
                  Dict.find k (Game.board g') = Dict.find k (Game.board g))
    /\ full_board (Game.board g').
Proof.
  intros Hb Hc Hpos.
  set (sym := participant_symbol (Game.current g)).
  assert (full_board (Dict.set pos sym (Game.board g))) as Hb'
    by (by apply full_board_set).
  destruct (getitem_nonneg (Game.children g) (pos - 1)) as (btn & Hget & _);
    [lia|].
  pose proof (setitem_nonneg (Game.children g) (pos - 1)
                (mkButton blurple sym (btn_row btn) (btn_custom_id btn) true))
    as Hset.
  unfold Game.apply_move, Game.update, St.bind, St.on_fst, St.on_snd,
    St.get, St.modify, St.lift, St.ret. simpl.
  fold sym. rewrite Hget. rewrite Hset by lia. simpl.
  destruct (check_win_total _ Hb') as [E | [l E]]; rewrite E; simpl.
  - do 3 eexists. split; [reflexivity|]. simpl.
    split; [by left|]. split; [done|]. split; [apply find_set_eq|].
    split; [|done]. intros k Hk. by apply find_set_ne.
  - do 3 eexists. split; [reflexivity|]. simpl.
    split; [by right|]. split; [done|]. split; [apply find_set_eq|].
    split; [|done]. intros k Hk. by apply find_set_ne.
Qed.

Lemma apply_move_writes_cell_witness :
  exists flow g' w',
    Game.apply_move 1 (Sample.x_on_1, Sample.world []) = (Ok flow, (g', w'))
    /\ (flow = Continue \/ flow = Break)
    /\ Game.board g'
       = Dict.set 1 Emojis.o_square (Game.board Sample.x_on_1)
    /\ Dict.find 1 (Game.board g') = Some Emojis.o_square
    /\ (forall k, k <> 1 ->
                  Dict.find k (Game.board g')
                  = Dict.find k (Game.board Sample.x_on_1))
    /\ full_board (Game.board g').
Proof.
  apply (apply_move_writes_cell Sample.x_on_1 (Sample.world []) 1);
    [by apply full_board_ordered | reflexivity | lia].
Defined.

(** C2, as stated, fails: cell 1 holds X, Bob (O) clicks its button, and the
    turn goes through with O written over X. *)
Lemma occupied_cell_is_overwritten :
  Dict.find 1 (Game.board Sample.x_on_1) = Some Emojis.x_square
  /\ exists g' w',
       Game.play_turn 101
         (Sample.x_on_1, Sample.world [(10, Sample.click Sample.bob 101 1)])
       = (Ok Continue, (g', w'))
       /\ Dict.find 1 (Game.board g') = Some Emojis.o_square.
Proof.
  split; [reflexivity|]. do 2 eexists.
  split; [vm_compute; reflexivity | reflexivity].
Qed.

(** ** The human move source *)

(** The loop of [get_move], as the source writes it: one [wait_for] per
    round, each with a timeout of its own. *)
Lemma get_move_unfold self board msg w :
  Player.get_move self board msg w
  = match Discord.wait_for Discord.interaction TIMEOUT
            (Player.check_for_move msg) w with
    | (Ok None, w') => (Ok TimedOut, w')
    | (Ok (Some inter), w') =>
        if negb (user_id (inter_user inter) =? user_id (Player.user self))
        then Player.get_move self board msg
               (snd (Discord.respond inter Player.not_your_turn true w'))
        else (Res.bind (Player.position_of inter)
                (fun pos => Ok (Move pos (Some inter))), w')
    | (Raise e, w') => (Raise e, w')
    end.
Proof.
  destruct w as [now pending rnd out nid].
  unfold Player.get_move, Discord.wait_for, set_inbox, set_clock. simpl.
  induction pending as [|[t ev] rest IH]; simpl.
  { by rewrite app_nil_r. }
  destruct (t <? now) eqn:Eold; [apply IH|].
  destruct (now + TIMEOUT <=? t) eqn:Elate.
  { by rewrite app_nil_r. }
  destruct ev as [inter|e m u]; simpl; [|apply IH].
  destruct (Player.check_for_move msg inter) eqn:Echeck; [|apply IH].
  simpl.
  destruct (negb (user_id (inter_user inter) =? user_id (Player.user self))).
  - destruct (Player.get_move_loop self msg t rest) as [[[o r] t'] rest'].
    simpl. by rewrite <- app_assoc.
  - by rewrite app_nil_r.
Qed.






(** ** The heuristic *)

Lemma find_In {V} k (v : V) d : Dict.find k d = Some v -> In (k, v) d.
Proof.
  induction d as [|[k' v'] d IH]; simpl; [done|].
  destruct (k =? k') eqn:E.
  - intros [= ->]. left. f_equal. lia.
  - auto.
Qed.

Lemma In_find {V} k (v : V) d :
  NoDup (Dict.keys d) -> In (k, v) d -> Dict.find k d = Some v.
Proof.
  induction d as [|[k' v'] d IH]; simpl; [done|].
  rewrite NoDup_cons. intros [Hk' Hd] [[= -> ->] | Hin].
  - by rewrite Z.eqb_refl.
  - destruct (k =? k') eqn:E; [|auto].
    apply Z.eqb_eq in E as ->. destruct Hk'.
    apply list_elem_of_In. unfold Dict.keys.
    change k' with (fst (k', v)). by apply in_map.
Qed.

(** The possible moves of a full board are its empty cells. *)
Lemma possible_moves_spec b m :
  full_board b ->
  In m (AI.possible_moves b) <-> Dict.find m b = Some Emojis.empty_placeholder.
Proof.
  intros Hb. unfold AI.possible_moves, Dict.items. rewrite in_map_iff. split.
  - intros ([k e] & <- & Hin). apply filter_In in Hin as [Hin He].
    simpl in *. apply In_find; [by apply full_board_NoDup|].
    destruct e; done.
  - intros Hm. exists (m, Emojis.empty_placeholder). split; [done|].
    apply filter_In. split; [by apply find_In | done].
Qed.

Lemma possible_moves_on_board b m :
  full_board b -> In m (AI.possible_moves b) -> 1 <= m <= 9.
Proof.
  intros Hb Hm. apply (possible_moves_spec b m Hb) in Hm.
  apply (full_board_in b m Hb). apply find_Some_keys. eauto.
Qed.

Lemma line_complete_cells b l :
  line_complete b l
  <-> exists s, s <> Emojis.empty_placeholder
                /\ forall k, In k (cells l) -> Dict.find k b = Some s.
Proof.
  destruct l as [[p q] r]. simpl. split.
  - intros (s & Hs & Hp & Hq & Hr). exists s. split; [done|].
    intros k [<-|[<-|[<-|[]]]]; done.
  - intros (s & Hs & Hall). exists s. repeat split; auto.
Qed.

Lemma winning_combinations_cells l k :
  In l winning_combinations -> In k (cells l) -> 1 <= k <= 9.
Proof.
  intros Hl Hk. pose proof winning_combinations_on_board as H.
  rewrite List.Forall_forall in H. specialize (H l Hl).
  destruct l as [[p q] r]. simpl in *. intuition lia.
Qed.

(** On an undecided board, writing [sym] to the empty cell [m] makes
    [check_win] hold exactly when the move completes a line of [sym]. *)
Lemma check_win_after_move b sym m :
  full_board b -> undecided b -> sym <> Emojis.empty_placeholder ->
  Dict.find m b = Some Emojis.empty_placeholder ->
  exists win, check_win (Dict.set m sym b) = Ok win
              /\ (fst win = true <-> completes b sym m).
Proof.
  intros Hb Hund Hsym Hm.
  assert (1 <= m <= 9) as Hm9
    by (apply (full_board_in b m Hb), find_Some_keys; eauto).
  pose proof (full_board_set b m sym Hb Hm9) as Hb'.
  assert ((exists l, In l winning_combinations
                     /\ line_complete (Dict.set m sym b) l)
          <-> completes b sym m) as Hiff.
  { split.
    - intros (l & Hl & Hc). split; [done|]. exists l. split; [done|].
      apply line_complete_cells in Hc as (s & Hs & Hall).
      destruct (in_dec Z.eq_dec m (cells l)) as [Hin | Hout].
      + split; [done|]. intros k Hk Hkm.
        pose proof (Hall m Hin) as Hmm. rewrite find_set_eq in Hmm.
        injection Hmm as <-. rewrite <- (Hall k Hk).
        symmetry. by apply find_set_ne.
      + destruct (Hund l Hl). apply line_complete_cells. exists s.
        split; [done|]. intros k Hk. rewrite <- (Hall k Hk).
        symmetry. apply find_set_ne. intros ->. done.
    - intros (_ & l & Hl & Hin & Hall). exists l. split; [done|].
      apply line_complete_cells. exists sym. split; [done|].
      intros k Hk. destruct (decide (k = m)) as [->|Hne].
      + apply find_set_eq.
      + rewrite find_set_ne by done. auto. }
  destruct (check_win_loop_cases winning_combinations _ Hb'
              winning_combinations_on_board) as [[Hall E] | (l & Hl & E)];
    fold (check_win (Dict.set m sym b)) in E; rewrite E;
    eexists; (split; [reflexivity|]); simpl.
  - split; [done|]. intros Hc. apply Hiff in Hc as (l & Hl & Hc).
    rewrite List.Forall_forall in Hall. by destruct (Hall l Hl).
  - split; [|done]. intros _. apply Hiff. exists l. by apply first_in_In.
Qed.

(** The inner loop of the heuristic finds the first possible move that
    completes a line of [sym], if there is one. *)
Lemma winning_move_cases b sym moves :
  full_board b -> undecided b -> sym <> Emojis.empty_placeholder ->
  Forall (fun m => Dict.find m b = Some Emojis.empty_placeholder) moves ->
  (Forall (fun m => ~ completes b sym m) moves
   /\ AI.winning_move sym moves b = Ok None)
  \/ (exists m, first_in (completes b sym) moves m
                /\ AI.winning_move sym moves b = Ok (Some m)).
Proof.
  intros Hb Hund Hsym. induction 1 as [|m moves Hm Hmoves IH]; simpl.
  - left. auto.
  - unfold Dict.copy.
    destruct (check_win_after_move b sym m Hb Hund Hsym Hm)
      as (win & -> & Hwin). simpl.
    destruct (fst win).
    + right. exists m. split; [|done]. apply first_in_cons_hit. by apply Hwin.
    + assert (~ completes b sym m) as Hno
        by (intros Hc; apply Hwin in Hc; done).
      destruct IH as [[Hall E] | (m' & Hfirst & E)].
      * left. auto.
      * right. exists m'. split; [|done]. by apply first_in_cons_miss.
Qed.

(** Without any assumption on the lines of the board, the inner loop still
    raises nothing and returns one of the moves it was given. *)
Lemma winning_move_total b sym moves :
  full_board b -> Forall (fun m => 1 <= m <= 9) moves ->
  AI.winning_move sym moves b = Ok None
  \/ exists m, In m moves /\ AI.winning_move sym moves b = Ok (Some m).
Proof.
  intros Hb. induction 1 as [|m moves Hm Hmoves IH]; simpl; [by left|].
  unfold Dict.copy.
  destruct (check_win_total _ (full_board_set b m sym Hb Hm)) as [E | [l E]];
    rewrite E; simpl.
  - destruct IH as [IH | (m' & Hin & IH)]; [by left|].
    right. exists m'. auto.
  - right. exists m. auto.
Qed.

Lemma first_winning_move_total b moves :
  full_board b -> Forall (fun m => 1 <= m <= 9) moves ->
  AI.first_winning_move [Emojis.o_square; Emojis.x_square] moves b = Ok None
  \/ exists m, In m moves
               /\ AI.first_winning_move [Emojis.o_square; Emojis.x_square]
                    moves b = Ok (Some m).
Proof.
  intros Hb Hmoves. simpl.
  destruct (winning_move_total b Emojis.o_square moves Hb Hmoves)
    as [-> | (m & Hin & ->)]; simpl; [|eauto].
  destruct (winning_move_total b Emojis.x_square moves Hb Hmoves)
    as [-> | (m & Hin & ->)]; simpl; eauto.
Qed.

Lemma possible_moves_range b :
  full_board b -> Forall (fun m => 1 <= m <= 9) (AI.possible_moves b).
Proof.
  intros Hb. apply List.Forall_forall. intros m.
  by apply possible_moves_on_board.
Qed.

Lemma possible_moves_empty b :
  full_board b ->
  Forall (fun m => Dict.find m b = Some Emojis.empty_placeholder)
         (AI.possible_moves b).
Proof.
  intros Hb. apply List.Forall_forall. intros m.
  by apply possible_moves_spec.
Qed.

(** [random.choice] of a non-empty list raises nothing and returns one of
    its elements, whatever the entropy. *)
Lemma choice_nonempty {A} (l : list A) w :
  l <> [] -> exists x w', Random.choice l w = (Ok x, w') /\ In x l.
Proof.
  intros Hl. destruct l as [|a l]; [done|].
  unfold Random.choice, St.bind, St.lift.
  destruct (Random.draw w) as [r w'] eqn:Edraw.
  assert (exists z, r = Ok z) as [z ->].
  { unfold Random.draw in Edraw. destruct (entropy w); injection Edraw as <- _;
      eauto. }
  destruct (getitem_nonneg (a :: l) (z mod Z.of_nat (length (a :: l))))
    as (x & -> & Hx).
  - apply Z.mod_pos_bound. simpl. lia.
  - exists x, w'. split; [done|].
    apply list_elem_of_In, list_elem_of_lookup. eauto.
Qed.

(** The heuristic after its delay: the world [w1] differs from [w] in time
    and entropy only. *)
Lemma ai_get_move_after_delay b msg w :
  exists w1,
    inbox w1 = inbox w /\ outbox w1 = outbox w /\ next_id w1 = next_id w
    /\ AI.get_move b msg w
       = match AI.first_winning_move [Emojis.o_square; Emojis.x_square]
                 (AI.possible_moves b) b with
         | Ok (Some move) => (Ok (Move move None), w1)
         | Ok None =>
             if 0 <? Z.of_nat (length (AI.open_corners (AI.possible_moves b)))
             then St.bind (Random.choice (AI.open_corners (AI.possible_moves b)))
                    (fun move => St.ret (Move move None)) w1
             else if AI.in_list 5 (AI.possible_moves b)
                  then (Ok (Move 5 None), w1)
                  else St.bind
                         (Random.choice (AI.open_edges (AI.possible_moves b)))
                         (fun move => St.ret (Move move None)) w1
         | Raise e => (Raise e, w1)
         end.
Proof.
  unfold AI.get_move.
  generalize (AI.first_winning_move [Emojis.o_square; Emojis.x_square]
                (AI.possible_moves b) b) as found.
  intros found.
  unfold Random.random, Random.draw, Discord.sleep, St.modify, St.lift,
    St.ret, St.bind.
  destruct (entropy w) as [|r rs]; simpl;
    (eexists; (split; [|split; [|split]]);
     [ | | | destruct found as [[m|]|e]; try reflexivity;
               destruct (0 <? _); [reflexivity|];
               destruct (AI.in_list _ _); reflexivity ]; done).
Qed.

(** An empty cell is a corner, the center or an edge. *)
Lemma open_edges_nonempty b k :
  full_board b -> In k (AI.possible_moves b) ->
  AI.open_corners (AI.possible_moves b) = [] ->
  AI.in_list 5 (AI.possible_moves b) = false ->
  AI.open_edges (AI.possible_moves b) <> [].
Proof.
  intros Hb Hk Ecorners Ecenter Hedges.
  pose proof (possible_moves_on_board b k Hb Hk) as Hk9.
  assert (In k (AI.open_corners (AI.possible_moves b))
          \/ AI.in_list 5 (AI.possible_moves b) = true
          \/ In k (AI.open_edges (AI.possible_moves b))) as Hcase.
  { unfold AI.open_corners, AI.open_edges. rewrite !filter_In.
    assert (k = 1 \/ k = 3 \/ k = 7 \/ k = 9 \/ k = 5
            \/ k = 2 \/ k = 4 \/ k = 6 \/ k = 8) as Hk' by lia.
    destruct Hk' as [->|[->|[->|[->|[->|[->|[->|[->| ->]]]]]]]];
      try (left; split; [done | reflexivity]);
      try (right; right; split; [done | reflexivity]).
    right. left. apply existsb_exists. exists 5. split; [done | lia]. }
  rewrite Ecorners, Ecenter, Hedges in Hcase. simpl in Hcase.
  destruct Hcase as [[] | [? | []]]. done.
Qed.

(** C4, as the code has it. On an undecided board on which the AI has two
    of its marks in a line with the third cell empty, the AI's move
    completes a line of its own mark when the AI controls O, as every AI the
    code creates does, or when O has no line to complete: the search for a
    completing move is run for O first and for X after it, whichever mark
    the AI controls. *)
Theorem ai_completes_own_line (ai : AI.t) (b : Board) (msg : Z) (w : World) :
  full_board b -> undecided b ->
  AI.symbol ai <> Emojis.empty_placeholder ->
  (exists m, completes b (AI.symbol ai) m) ->
  AI.symbol ai = Emojis.o_square
  \/ (forall m, ~ completes b Emojis.o_square m) ->
  exists m w',
    AI.get_move b msg w = (Ok (Move m None), w')
    /\ completes b (AI.symbol ai) m.
Proof.
  intros Hb Hund Hsym [m0 Hm0] Hfirst.
  assert (In m0 (AI.possible_moves b)) as Hin0
    by (apply possible_moves_spec; [done | apply Hm0]).
  destruct (ai_get_move_after_delay b msg w) as (w1 & _ & _ & _ & ->).
  pose proof (possible_moves_empty b Hb) as Hempty.
  assert (forall s, s <> Emojis.empty_placeholder -> completes b s m0 ->
            exists m, completes b s m
                      /\ AI.winning_move s (AI.possible_moves b) b
                         = Ok (Some m)) as Hfound.
  { intros s Hs Hc.
    destruct (winning_move_cases b s _ Hb Hund Hs Hempty)
      as [[Hall _] | (m & Hm & E)].
    - rewrite List.Forall_forall in Hall. by destruct (Hall m0 Hin0).
    - exists m. split; [|done]. by apply first_in_In in Hm as [_ Hm]. }
  simpl. destruct Hfirst as [Ho | Hno].
  - rewrite Ho in Hm0 |- *.
    destruct (Hfound Emojis.o_square ltac:(done) Hm0) as (m & Hm & ->).
    simpl. eauto.
  - destruct (winning_move_cases b Emojis.o_square _ Hb Hund
                ltac:(done) Hempty) as [[_ ->] | (m & Hm & _)].
    + simpl. destruct (AI.symbol ai) eqn:Es; [done| |by destruct (Hno m0)].
      destruct (Hfound _ Hsym Hm0) as (m & Hm & ->). simpl. eauto.
    + apply first_in_In in Hm as [_ Hm]. by destruct (Hno m).
Qed.

(** C5. For every board with at least one empty cell, [AI.get_move] returns
    a move, never [TimedOut], and the position of the move is empty. *)
Theorem ai_move_is_on_empty_cell (b : Board) (msg : Z) (w : World) :
  full_board b ->
  (exists k, Dict.find k b = Some Emojis.empty_placeholder) ->
  exists m w',
    AI.get_move b msg w = (Ok (Move m None), w')
    /\ Dict.find m b = Some Emojis.empty_placeholder.
Proof.
  intros Hb [k Hk].
  apply (possible_moves_spec b k Hb) in Hk.
  destruct (ai_get_move_after_delay b msg w) as (w1 & _ & _ & _ & ->).
  destruct (first_winning_move_total b _ Hb (possible_moves_range b Hb))
    as [-> | (m & Hin & ->)].
  2: { exists m, w1. split; [done|]. by apply possible_moves_spec. }
  assert (forall l, l <> [] ->
            (forall m, In m l -> In m (AI.possible_moves b)) ->
            exists m w',
              St.bind (Random.choice l) (fun move => St.ret (Move move None))
                      w1 = (Ok (Move m None), w')
              /\ Dict.find m b = Some Emojis.empty_placeholder) as Hchoice.
  { intros l Hl Hsub. destruct (choice_nonempty l w1 Hl) as (m & w' & E & Hm).
    exists m, w'. unfold St.bind. rewrite E. split; [done|].
    apply possible_moves_spec; auto. }
  destruct (0 <? Z.of_nat (length (AI.open_corners (AI.possible_moves b))))
    eqn:Ecorners.
  - apply Hchoice.
    + intros E. by rewrite E in Ecorners.
    + intros m Hm. unfold AI.open_corners in Hm.
      by apply filter_In in Hm as [Hm _].
  - assert (AI.open_corners (AI.possible_moves b) = []) as Enil
      by (apply length_zero_iff_nil; lia).
    destruct (AI.in_list 5 (AI.possible_moves b)) eqn:Ecenter.
    + exists 5, w1. split; [done|]. apply possible_moves_spec; [done|].
      unfold AI.in_list in Ecenter. apply existsb_exists in Ecenter
        as (x & Hx & Ex). apply Z.eqb_eq in Ex as <-. done.
    + apply Hchoice.
      * by apply (open_edges_nonempty b k).
      * intros m Hm. unfold AI.open_edges in Hm.
        by apply filter_In in Hm as [Hm _].
Qed.

(** C10. With at least one empty cell, when no single move completes a line
    for either mark, no corner is empty and the center is taken, some edge is
    empty: the final [random.choice] is over a non-empty list, raises nothing
    and yields one of the empty edges. *)
Theorem ai_final_choice_never_fails (b : Board) (msg : Z) (w : World) :
  full_board b ->
  (exists k, Dict.find k b = Some Emojis.empty_placeholder) ->
  AI.first_winning_move [Emojis.o_square; Emojis.x_square]
                        (AI.possible_moves b) b = Ok None ->
  AI.open_corners (AI.possible_moves b) = [] ->
  AI.in_list 5 (AI.possible_moves b) = false ->
  AI.open_edges (AI.possible_moves b) <> []
  /\ exists m w',
       AI.get_move b msg w = (Ok (Move m None), w')
       /\ In m (AI.open_edges (AI.possible_moves b))
       /\ In m [2; 4; 6; 8]
       /\ Dict.find m b = Some Emojis.empty_placeholder.
Proof.
  intros Hb [k Hk] Hnone Hcorners Hcenter.
  apply (possible_moves_spec b k Hb) in Hk.
  pose proof (open_edges_nonempty b k Hb Hk Hcorners Hcenter) as Hedges.
  split; [done|].
  destruct (ai_get_move_after_delay b msg w) as (w1 & _ & _ & _ & ->).
  rewrite Hnone, Hcorners, Hcenter. simpl.
  destruct (choice_nonempty _ w1 Hedges) as (m & w' & E & Hm).
  exists m, w'. unfold St.bind. rewrite E. split; [done|]. split; [done|].
  unfold AI.open_edges in Hm. apply filter_In in Hm as [Hm Hedge].
  split; [|by apply possible_moves_spec].
  unfold AI.in_list in Hedge. apply existsb_exists in Hedge as (x & Hx & Ex).
  by apply Z.eqb_eq in Ex as <-.
Qed.

Lemma undecided_iff b :
  full_board b -> undecided b <-> check_win b = Ok (false, None).
Proof.
  intros Hb. unfold undecided.
  destruct (check_win_loop_cases winning_combinations b Hb
              winning_combinations_on_board) as [[Hall E] | (l & Hl & E)];
    fold (check_win b) in E; rewrite E.
  - split; [done|]. intros _. by apply List.Forall_forall.
  - split; [|done]. intros Hno. apply first_in_In in Hl as [Hin Hc].
    by destruct (Hno l Hin).
Qed.

Lemma both_threaten_o : completes Sample.both_threaten Emojis.o_square 6.
Proof.
  split; [reflexivity|]. exists (4, 5, 6).
  split; [simpl; tauto|]. split; [simpl; tauto|].
  intros k [<-|[<-|[<-|[]]]] Hk; (reflexivity || done).
Defined.

Lemma both_threaten_x : completes Sample.both_threaten Emojis.x_square 3.
Proof.
  split; [reflexivity|]. exists (1, 2, 3).
  split; [simpl; tauto|]. split; [simpl; tauto|].
  intros k [<-|[<-|[<-|[]]]] Hk; (reflexivity || done).
Defined.

Lemma ai_completes_own_line_witness :
  exists m w',
    AI.get_move Sample.both_threaten 101 (Sample.world [])
    = (Ok (Move m None), w')
    /\ completes Sample.both_threaten Emojis.o_square m.
Proof.
  apply (ai_completes_own_line (AI.mk Sample.lancebot Emojis.o_square)
           Sample.both_threaten 101 (Sample.world [])).
  - by apply full_board_ordered.
  - apply undecided_iff; [by apply full_board_ordered | reflexivity].
  - simpl. discriminate.
  - exists 6. apply both_threaten_o.
  - left. reflexivity.
Defined.

(** C4, as stated, fails for an AI that controls X: X holds 1 and 2 with 3
    empty, yet the move returned is 6, where O would complete its row; X
    written there completes no line. *)
Lemma ai_as_x_blocks_before_winning :
  AI.symbol (AI.mk Sample.lancebot Emojis.x_square) = Emojis.x_square
  /\ full_board Sample.both_threaten
  /\ completes Sample.both_threaten Emojis.x_square 3
  /\ (exists w',
        AI.get_move Sample.both_threaten 101 (Sample.world [])
        = (Ok (Move 6 None), w'))
  /\ check_win (Dict.set 6 Emojis.x_square Sample.both_threaten)
     = Ok (false, None).
Proof.
  split; [reflexivity|]. split; [by apply full_board_ordered|].
  split; [apply both_threaten_x|].
  split; [eexists; vm_compute; reflexivity | reflexivity].
Qed.

Lemma ai_move_is_on_empty_cell_witness :
  exists m w',
    AI.get_move Sample.both_threaten 101 (Sample.world [])
    = (Ok (Move m None), w')
    /\ Dict.find m Sample.both_threaten = Some Emojis.empty_placeholder.
Proof.
  apply (ai_move_is_on_empty_cell Sample.both_threaten 101 (Sample.world [])).
  - by apply full_board_ordered.
  - exists 3. reflexivity.
Defined.

Lemma ai_final_choice_never_fails_witness :
  AI.open_edges (AI.possible_moves Sample.edge_left) <> []
  /\ exists m w',
       AI.get_move Sample.edge_left 101 (Sample.world [])
       = (Ok (Move m None), w')
       /\ In m (AI.open_edges (AI.possible_moves Sample.edge_left))
       /\ In m [2; 4; 6; 8]
       /\ Dict.find m Sample.edge_left = Some Emojis.empty_placeholder.
Proof.
  apply (ai_final_choice_never_fails Sample.edge_left 101 (Sample.world [])).
  - by apply full_board_ordered.
  - exists 6. reflexivity.
  - reflexivity.
  - reflexivity.
  - reflexivity.
Defined.

(** ** The turn loop *)

(** C6, as the code has it. The clicks X:1 O:2 X:3 O:4 X:5 O:6 X:7 complete
    the diagonal (3, 5, 7) with X's fourth move: the game ends there, won by
    X and not drawn, and the clicks O:8 X:9 are never asked for. *)
Theorem alternating_clicks_end_won :
  Game.init [Sample.X; Sample.O] Sample.ctx = Ok Sample.fresh_game
  /\ exists g w,
       Game.play (Sample.fresh_game, Sample.nine_clicks) = (Ok tt, (g, w))
       /\ Game.board g
          = Sample.board_of
              [ Emojis.x_square; Emojis.o_square; Emojis.x_square;
                Emojis.o_square; Emojis.x_square; Emojis.o_square;
                Emojis.x_square; Emojis.empty_placeholder;
                Emojis.empty_placeholder ]
       /\ check_win (Game.board g) = Ok (true, Some (3, 5, 7))
       /\ Game.winner g = Some Sample.X
       /\ Game.loser g = Some Sample.O
       /\ Game.over g = true
       /\ Game.draw g = false
       /\ Game.canceled g = false
       /\ inbox w = [ (8000, Sample.click Sample.bob 101 8);
                      (9000, Sample.click Sample.alice 101 9) ].
Proof.
  split; [reflexivity|]. do 2 eexists.
  split; [vm_compute; reflexivity|]. repeat split.
Qed.

(** C6, as stated, fails: the game played on these clicks is won by X and
    is not a draw. *)
Lemma nine_clicks_are_not_a_draw :
  exists g w,
    Game.play (Sample.fresh_game, Sample.nine_clicks) = (Ok tt, (g, w))
    /\ Game.draw g = false
    /\ Game.winner g = Some Sample.X.
Proof. do 2 eexists. split; [vm_compute; reflexivity|]. split; reflexivity. Qed.

Ltac run_monad :=
  unfold St.bind, St.on_fst, St.on_snd, St.get, St.modify, St.lift, St.ret,
    St.raise, Game.update in *;
  simpl in *.

(** Applying a move leaves the channel, the players and [over] alone, and
    never ends [play] by itself. *)
Lemma apply_move_frame pos g w r g' w' :
  Game.apply_move pos (g, w) = (r, (g', w')) ->
  Game.channel g' = Game.channel g
  /\ Game.players g' = Game.players g
  /\ Game.over g' = Game.over g
  /\ r <> Ok Return.
Proof.
  unfold Game.apply_move. run_monad. intros H.
  repeat (case_match; simpl in *; simplify_eq); done.
Qed.

(** A turn that ends [play] has set [over]. *)
Lemma play_turn_frame msg g w r g' w' :
  Game.play_turn msg (g, w) = (r, (g', w')) ->
  Game.channel g' = Game.channel g
  /\ Game.players g' = Game.players g
  /\ (r = Ok Return -> Game.over g' = true).
Proof.
  unfold Game.play_turn. run_monad. intros H.
  destruct (Game.current g) as [p|a]; simpl in *.
  - destruct (Player.get_move p (Game.board g) msg _) as [[[|pos inter]|e] w1];
      simplify_eq; simpl; try done.
    apply apply_move_frame in H as (? & ? & ? & ?). done.
  - destruct (AI.get_move (Game.board g) msg w) as [[[|pos inter]|e] w1];
      simplify_eq; simpl; try done.
    apply apply_move_frame in H as (? & ? & ? & ?). done.
Qed.

Lemma play_loop_frame n msg g w r g' w' :
  Game.play_loop n msg (g, w) = (r, (g', w')) ->
  Game.channel g' = Game.channel g
  /\ Game.players g' = Game.players g
  /\ (r = Ok Return -> Game.over g' = true).
Proof.
  revert g w. induction n as [|n IH]; intros g w; simpl.
  - unfold St.ret. intros [= <- <- <-]. done.
  - unfold St.bind.
    destruct (Game.play_turn msg (g, w)) as [r1 [g1 w1]] eqn:Eturn.
    apply play_turn_frame in Eturn as (Hc & Hp & Hover).
    destruct r1 as [[| |]|e]; unfold St.ret.
    + intros H. apply IH in H as (? & ? & ?). by rewrite <- Hc, <- Hp.
    + intros [= <- <- <-]. done.
    + intros [= <- <- <-]. auto.
    + intros [= <- <- <-]. done.
Qed.

(** [play] keeps the channel and the players; when it returns, the game is
    over. *)
Lemma play_frame g w r g' w' :
  Game.play (g, w) = (r, (g', w')) ->
  Game.channel g' = Game.channel g
  /\ Game.players g' = Game.players g
  /\ (r = Ok tt -> Game.over g' = true).
Proof.
  unfold Game.play. unfold St.bind at 1 2 3 4. unfold St.on_fst at 1.
  unfold St.on_snd at 1 2. unfold St.get. simpl.
  destruct (Game.play_loop _ _ _) as [r1 [g1 w1]] eqn:Eloop.
  apply play_loop_frame in Eloop as (Hc & Hp & Hover). simpl in *.
  destruct r1 as [[| |]|e]; run_monad.
  - destruct (Game.winner g1); intros [= <- <- <-]; done.
  - destruct (Game.winner g1); intros [= <- <- <-]; done.
  - intros [= <- <- <-]. auto.
  - intros [= <- <- <-]. done.
Qed.

(** ** The registry *)

Lemma running_spec cog game :
  In game (TicTacToe.running cog)
  <-> In game (TicTacToe.games cog) /\ Game.over game = false.
Proof.
  unfold TicTacToe.running. rewrite filter_In.
  by destruct (Game.over game); simpl; split; intros [? ?].
Qed.

(** C7. [is_channel_free] holds iff no game that is not over is bound to the
    channel. With one such game in the registry it is false; once [play]
    has returned on that game (won, drawn or timed out) the game is over and
    the channel is free. *)
Theorem channel_free_iff_no_running_game (cog : TicTacToe.t) (ctx : Context) :
  (TicTacToe.is_channel_free cog ctx = true
   <-> ~ exists game, In game (TicTacToe.games cog)
                      /\ Game.over game = false
                      /\ Game.channel game = ctx_channel ctx)
  /\ (forall g, Game.over g = false -> Game.channel g = ctx_channel ctx ->
                TicTacToe.is_channel_free (TicTacToe.mk [g]) ctx = false)
  /\ (forall g w cog' w',
        TicTacToe.on_game 0 Game.play (TicTacToe.mk [g], w)
        = (Ok tt, (cog', w')) ->
        exists g', TicTacToe.games cog' = [g']
                   /\ Game.channel g' = Game.channel g
                   /\ Game.over g' = true
                   /\ TicTacToe.is_channel_free cog' ctx = true).
Proof.
  split; [|split].
  - unfold TicTacToe.is_channel_free. rewrite forallb_forall. split.
    + intros Hall (game & Hin & Hover & Hch).
      specialize (Hall game ltac:(by apply running_spec)).
      rewrite Hch, Z.eqb_refl in Hall. done.
    + intros Hno game Hin. apply running_spec in Hin as [Hin Hover].
      destruct (Game.channel game =? ctx_channel ctx) eqn:E; [|done].
      destruct Hno. exists game. split; [done|]. split; [done | lia].
  - intros g Hover Hch. unfold TicTacToe.is_channel_free, TicTacToe.running.
    simpl. rewrite Hover. simpl. by rewrite Hch, Z.eqb_refl.
  - intros g w cog' w'. unfold TicTacToe.on_game. simpl.
    destruct (Game.play (g, w)) as [r [g1 w1]] eqn:Eplay.
    intros [= -> <- <-].
    apply play_frame in Eplay as (Hc & _ & Hover).
    exists g1. split; [done|]. split; [done|]. split; [auto|].
    unfold TicTacToe.is_channel_free, TicTacToe.running. simpl.
    by rewrite Hover.
Qed.

(** A method run on the game appended last touches that entry only. *)
Lemma on_game_last {A} l g (m : M (Game.t * World) A) w :
  TicTacToe.on_game (length l) m (TicTacToe.mk (l ++ [g]), w)
  = let '(r, (g', w')) := m (g, w) in (r, (TicTacToe.mk (l ++ [g']), w')).
Proof.
  unfold TicTacToe.on_game. simpl.
  rewrite lookup_app_r, Nat.sub_diag by lia. simpl.
  destruct (m (g, w)) as [r [g' w']].
  rewrite insert_app_r_alt, Nat.sub_diag by lia. done.
Qed.

(** No command removes or changes a game that is in the registry: it may
    only append one. *)
Lemma tic_tac_toe_appends ctx opponent cog w :
  exists extra,
    TicTacToe.games (fst (snd (TicTacToe.tic_tac_toe ctx opponent (cog, w))))
    = TicTacToe.games cog ++ extra.
Proof.
  destruct cog as [l].
  unfold TicTacToe.tic_tac_toe, TicTacToe.send. run_monad.
  destruct (match opponent with Some o => user_eqb o (ctx_author ctx)
                           | None => false end);
    [exists []; by rewrite app_nil_r|].
  destruct (match opponent with
            | Some o => negb (forallb _ _) | None => false end);
    [exists []; by rewrite app_nil_r|].
  destruct opponent as [o|]; simpl.
  - destruct (user_bot o); simpl; [eauto|].
    rewrite on_game_last.
    destruct (Game.get_confirmation _) as [[[confirmed msg]|e] [g1 w1]];
      simpl; [|eauto].
    destruct confirmed; simpl.
    + rewrite on_game_last. destruct (Game.play _) as [r [g2 w2]]. eauto.
    + destruct msg; simpl; eauto.
  - rewrite on_game_last. destruct (Game.play _) as [r [g2 w2]]. eauto.
Qed.

Lemma invoke_appends c cog w :
  exists extra,
    TicTacToe.games (fst (snd (invoke c (cog, w))))
    = TicTacToe.games cog ++ extra.
Proof.
  destruct c as [ctx opponent | ctx | ctx game_id]; simpl.
  - unfold TicTacToe.invoke_tic_tac_toe. run_monad.
    destruct (_ && _ && _); [apply tic_tac_toe_appends|].
    exists []. by rewrite app_nil_r.
  - exists []. rewrite app_nil_r.
    unfold TicTacToe.tic_tac_toe_logs, TicTacToe.send. run_monad.
    repeat (case_match; simpl in *; simplify_eq); done.
  - exists []. rewrite app_nil_r.
    unfold TicTacToe.show_tic_tac_toe_board, TicTacToe.show_game,
      TicTacToe.send. run_monad.
    repeat (case_match; simpl in *; simplify_eq); done.
Qed.

Lemma run_appends trace cog :
  exists extra, TicTacToe.games (run cog trace) = TicTacToe.games cog ++ extra.
Proof.
  revert cog. induction trace as [|[c w] trace IH]; intros cog; simpl.
  - exists []. by rewrite app_nil_r.
  - destruct (IH (step cog (c, w))) as [extra ->].
    destruct (invoke_appends c cog w) as [extra' E].
    unfold step. simpl. rewrite E, <- app_assoc. eauto.
Qed.

(** C8. A game requested against a bot is appended to the registry, then
    the request is rejected and the command returns; the game is not over,
    and whatever commands follow, it stays in the registry as it is, so that
    its channel and both of its participants are reported busy ever after. *)
Theorem bot_opponent_game_stays_running
    (cog : TicTacToe.t) (ctx : Context) (opp : User) (w : World) :
  user_bot opp = true ->
  TicTacToe.is_requester_free cog ctx = true ->
  TicTacToe.is_channel_free cog ctx = true ->
  ctx_guild ctx = true ->
  user_eqb opp (ctx_author ctx) = false ->
  forallb (fun g => negb (TicTacToe.plays_in opp g)) (TicTacToe.running cog)
  = true ->
  exists g w',
    invoke (CmdTicTacToe ctx (Some opp)) (cog, w)
    = (Ok tt, (TicTacToe.mk (TicTacToe.games cog ++ [g]), w'))
    /\ outbox w'
       = outbox w ++ [Send (ctx_channel ctx)
                           [Txt "You can't play Tic-Tac-Toe with bots!"]]
    /\ Game.over g = false
    /\ Game.channel g = ctx_channel ctx
    /\ map participant_user (Game.players g) = [ctx_author ctx; opp]
    /\ forall trace,
         TicTacToe.games
           (run (TicTacToe.mk (TicTacToe.games cog ++ [g])) trace)
         !! length (TicTacToe.games cog) = Some g
         /\ (forall ctx', ctx_channel ctx' = ctx_channel ctx ->
               TicTacToe.is_channel_free
                 (run (TicTacToe.mk (TicTacToe.games cog ++ [g])) trace) ctx'
               = false)
         /\ (forall ctx',
               user_eqb (ctx_author ctx') (ctx_author ctx) = true
               \/ user_eqb (ctx_author ctx') opp = true ->
               TicTacToe.is_requester_free
                 (run (TicTacToe.mk (TicTacToe.games cog ++ [g])) trace) ctx'
               = false).
Proof.
  intros Hbot Hreq Hch Hguild Hself Hfree.
  destruct cog as [l]. simpl in *.
  unfold TicTacToe.invoke_tic_tac_toe, TicTacToe.tic_tac_toe, TicTacToe.send.
  run_monad. rewrite Hreq, Hch, Hguild, Hself. simpl.
  rewrite Hfree, Hbot. simpl.
  do 2 eexists. split; [reflexivity|]. simpl.
  split; [done|]. split; [done|]. split; [done|]. split; [done|].
  clear Hreq Hch Hfree. intros trace.
  match goal with
  | |- context [run (TicTacToe.mk (l ++ [?g0])) trace] => set (g := g0)
  end.
  destruct (run_appends trace (TicTacToe.mk (l ++ [g]))) as [extra E].
  simpl in E.
  assert (In g (TicTacToe.running (run (TicTacToe.mk (l ++ [g])) trace)))
    as Hin.
  { apply running_spec. split; [|done]. rewrite E.
    apply in_or_app. left. apply in_or_app. right. by left. }
  split; [|split].
  - rewrite E, <- app_assoc. rewrite lookup_app_r, Nat.sub_diag by lia. done.
  - intros ctx' Hctx'. unfold TicTacToe.is_channel_free.
    destruct (forallb _ (TicTacToe.running _)) eqn:Eall; [|done].
    rewrite forallb_forall in Eall. specialize (Eall g Hin).
    simpl in Eall. rewrite Hctx', Z.eqb_refl in Eall. done.
  - intros ctx' Hctx'. unfold TicTacToe.is_requester_free.
    destruct (forallb _ (TicTacToe.running _)) eqn:Eall; [|done].
    rewrite forallb_forall in Eall. specialize (Eall g Hin).
    unfold TicTacToe.plays_in in Eall. simpl in Eall.
    destruct Hctx' as [H | H]; rewrite H in Eall; simpl in Eall;
      [done | by rewrite orb_true_r in Eall].
Qed.

Lemma bot_opponent_game_stays_running_witness :
  exists g w',
    invoke (CmdTicTacToe Sample.ctx (Some Sample.lancebot))
           (TicTacToe.init, Sample.world [])
    = (Ok tt, (TicTacToe.mk [g], w'))
    /\ Game.over g = false
    /\ forall trace,
         TicTacToe.is_channel_free (run (TicTacToe.mk [g]) trace) Sample.ctx
         = false.
Proof.
  destruct (bot_opponent_game_stays_running TicTacToe.init Sample.ctx
              Sample.lancebot (Sample.world []))
    as (g & w' & E & _ & Hover & _ & _ & Hlater);
    [reflexivity | reflexivity | reflexivity | reflexivity | reflexivity
    | reflexivity |].
  exists g, w'. split; [exact E|]. split; [exact Hover|].
  intros trace. destruct (Hlater trace) as (_ & Hchannel & _).
  by apply Hchannel.
Defined.

(** Up to the length of the history the lookup is Python's list indexing. *)
Lemma show_board_lookup cog ctx game_id w :
  game_id <= Z.of_nat (length (TicTacToe.games cog)) ->
  TicTacToe.show_tic_tac_toe_board ctx game_id (cog, w)
  = match getitem (TicTacToe.games cog) (game_id - 1) with
    | Ok game => TicTacToe.show_game ctx game_id game (cog, w)
    | Raise e => (Raise e, (cog, w))
    end.
Proof.
  intros Hid. unfold TicTacToe.show_tic_tac_toe_board.
  unfold St.bind at 1. unfold St.on_fst, St.get. simpl.
  destruct (Z.of_nat (length (TicTacToe.games cog)) <? game_id) eqn:E; [lia|].
  unfold St.bind at 1. unfold St.lift.
  destruct (getitem _ _); by destruct cog.
Qed.

(** C9, as the code has it. With a non-empty history of [n] games and a
    [game_id] that is zero or negative, the lookup never reports that the
    game does not exist. For [- n < game_id] it shows the game found by
    negative indexing, the one at position [n + game_id] of the history
    (0 the most recent, -1 the one before it, and so on); for
    [game_id <= - n] it raises [IndexError] and shows nothing. *)
Theorem show_board_nonpositive_id
    (cog : TicTacToe.t) (ctx : Context) (game_id : Z) (w : World) :
  TicTacToe.games cog <> [] -> game_id <= 0 ->
  (- Z.of_nat (length (TicTacToe.games cog)) < game_id ->
   exists game,
     TicTacToe.games cog
       !! Z.to_nat (Z.of_nat (length (TicTacToe.games cog)) + game_id - 1)
     = Some game
     /\ TicTacToe.show_tic_tac_toe_board ctx game_id (cog, w)
        = TicTacToe.show_game ctx game_id game (cog, w))
  /\ (game_id <= - Z.of_nat (length (TicTacToe.games cog)) ->
      TicTacToe.show_tic_tac_toe_board ctx game_id (cog, w)
      = (Raise IndexError, (cog, w))).
Proof.
  intros Hne Hid.
  assert (0 < Z.of_nat (length (TicTacToe.games cog))) as Hlen
    by (destruct (TicTacToe.games cog); [done | simpl; lia]).
  rewrite show_board_lookup by lia. split.
  - intros Hin.
    destruct (getitem_negative (TicTacToe.games cog) (game_id - 1))
      as (game & -> & Hgame); [lia|].
    exists game. split; [|done].
    rewrite <- Hgame. f_equal. lia.
  - intros Hout. rewrite getitem_out_of_range by lia. done.
Qed.

Lemma show_board_nonpositive_id_witness :
  (exists game,
     [Sample.x_on_1; Sample.fresh_game] !! 1%nat = Some game
     /\ TicTacToe.show_tic_tac_toe_board Sample.ctx 0
          (TicTacToe.mk [Sample.x_on_1; Sample.fresh_game], Sample.world [])
        = TicTacToe.show_game Sample.ctx 0 game
            (TicTacToe.mk [Sample.x_on_1; Sample.fresh_game],
             Sample.world []))
  /\ TicTacToe.show_tic_tac_toe_board Sample.ctx (-2)
       (TicTacToe.mk [Sample.x_on_1; Sample.fresh_game], Sample.world [])
     = (Raise IndexError,
        (TicTacToe.mk [Sample.x_on_1; Sample.fresh_game], Sample.world [])).
Proof.
  destruct (show_board_nonpositive_id
              (TicTacToe.mk [Sample.x_on_1; Sample.fresh_game]) Sample.ctx 0
              (Sample.world [])) as [Hnear _]; [done | lia |].
  destruct (show_board_nonpositive_id
              (TicTacToe.mk [Sample.x_on_1; Sample.fresh_game]) Sample.ctx
              (-2) (Sample.world [])) as [_ Hfar]; [done | lia |].
  split; [apply Hnear | apply Hfar]; simpl; lia.
Defined.

(** C9, as stated, fails: with one game in the history and [game_id = -1]
    the lookup raises [IndexError]; no game is shown and nothing is sent. *)
Lemma negative_id_beyond_history_raises :
  TicTacToe.show_tic_tac_toe_board Sample.ctx (-1)
    (TicTacToe.mk [Sample.fresh_game], Sample.world [])
  = (Raise IndexError, (TicTacToe.mk [Sample.fresh_game], Sample.world [])).
Proof. reflexivity. Qed.

(** * Part III: further properties of the code *)

(** ** The registry, continued *)

Lemma plays_in_spec user game :
  TicTacToe.plays_in user game = true
  <-> exists player, In player (Game.players game)
                     /\ user_id (participant_user player) = user_id user.
Proof.
  unfold TicTacToe.plays_in. rewrite existsb_exists. unfold user_eqb.
  split; intros (player & Hin & H); exists player; (split; [done|]); lia.
Qed.

(** X1. [is_requester_free] holds iff the author of the command is a player
    of no game that is not over. *)
Theorem requester_free_iff_in_no_running_game
    (cog : TicTacToe.t) (ctx : Context) :
  TicTacToe.is_requester_free cog ctx = true
  <-> ~ exists game, In game (TicTacToe.games cog)
                     /\ Game.over game = false
                     /\ exists player,
                          In player (Game.players game)
                          /\ user_id (participant_user player)
                             = user_id (ctx_author ctx).
Proof.
  unfold TicTacToe.is_requester_free. rewrite forallb_forall. split.
  - intros Hall (game & Hin & Hover & Hplays).
    apply plays_in_spec in Hplays.
    specialize (Hall game ltac:(by apply running_spec)).
    by rewrite Hplays in Hall.
  - intros Hno game Hin. apply running_spec in Hin as [Hin Hover].
    destruct (TicTacToe.plays_in (ctx_author ctx) game) eqn:E; [|done].
    destruct Hno. exists game. split; [done|]. split; [done|].
    by apply plays_in_spec.
Qed.

(** X2. An id above the length of the history is answered with the one
    message that the game does not exist; no game is shown and the registry
    is left as it is. *)
Theorem show_board_beyond_history
    (cog : TicTacToe.t) (ctx : Context) (game_id : Z) (w : World) :
  Z.of_nat (length (TicTacToe.games cog)) < game_id ->
  TicTacToe.show_tic_tac_toe_board ctx game_id (cog, w)
  = (Ok tt,
     (cog,
      mkWorld (clock w) (inbox w) (entropy w)
        (outbox w ++ [Send (ctx_channel ctx) [Txt "Game don't exist."]])
        (next_id w + 1))).
Proof.
  intros Hid. unfold TicTacToe.show_tic_tac_toe_board, TicTacToe.send.
  unfold St.bind at 1. unfold St.on_fst, St.get. simpl.
  destruct (Z.of_nat (length (TicTacToe.games cog)) <? game_id) eqn:E; [|lia].
  by destruct cog.
Qed.

Lemma show_board_beyond_history_witness :
  TicTacToe.show_tic_tac_toe_board Sample.ctx 5
    (TicTacToe.mk [Sample.fresh_game; Sample.x_on_1; Sample.fresh_game],
     Sample.world [])
  = (Ok tt,
     (TicTacToe.mk [Sample.fresh_game; Sample.x_on_1; Sample.fresh_game],
      mkWorld 0 [] [] [Send 7 [Txt "Game don't exist."]] 101)).
Proof.
  apply (show_board_beyond_history
           (TicTacToe.mk [Sample.fresh_game; Sample.x_on_1; Sample.fresh_game])
           Sample.ctx 5 (Sample.world [])).
  simpl. lia.
Defined.

(** X3. An id from 1 to the length of the history shows the game at that
    position of the history, counted from 1 in the order of creation,
    whatever the state of that game. *)
Theorem show_board_by_position
    (cog : TicTacToe.t) (ctx : Context) (game_id : Z) (w : World) :
  1 <= game_id <= Z.of_nat (length (TicTacToe.games cog)) ->
  exists game,
    TicTacToe.games cog !! Z.to_nat (game_id - 1) = Some game
    /\ TicTacToe.show_tic_tac_toe_board ctx game_id (cog, w)
       = TicTacToe.show_game ctx game_id game (cog, w).
Proof.
  intros Hid. rewrite show_board_lookup by lia.
  destruct (getitem_nonneg (TicTacToe.games cog) (game_id - 1))
    as (game & -> & Hgame); [lia|].
  eauto.
Qed.

Lemma show_board_by_position_witness :
  exists game,
    [Sample.fresh_game; Sample.x_on_1] !! 1%nat = Some game
    /\ TicTacToe.show_tic_tac_toe_board Sample.ctx 2
         (TicTacToe.mk [Sample.fresh_game; Sample.x_on_1], Sample.world [])
       = TicTacToe.show_game Sample.ctx 2 game
           (TicTacToe.mk [Sample.fresh_game; Sample.x_on_1], Sample.world []).
Proof.
  apply (show_board_by_position
           (TicTacToe.mk [Sample.fresh_game; Sample.x_on_1]) Sample.ctx 2
           (Sample.world [])).
  simpl. lia.
Defined.

(** X4. A request to play against oneself, or against someone who plays in
    a game that is not over, is answered with one message and creates no
    game. *)
Theorem rejected_request_creates_no_game
    (ctx : Context) (o : User) (cog : TicTacToe.t) (w : World) :
  user_id o = user_id (ctx_author ctx)
  \/ (exists game, In game (TicTacToe.games cog)
                   /\ Game.over game = false
                   /\ TicTacToe.plays_in o game = true) ->
  exists reason,
    TicTacToe.tic_tac_toe ctx (Some o) (cog, w)
    = (Ok tt,
       (cog,
        mkWorld (clock w) (inbox w) (entropy w)
          (outbox w ++ [Send (ctx_channel ctx) reason]) (next_id w + 1))).
Proof.
  intros Hcase. unfold TicTacToe.tic_tac_toe, TicTacToe.send.
  unfold St.bind at 1. unfold St.on_fst, St.get. simpl.
  destruct (user_eqb o (ctx_author ctx)) eqn:Eself.
  { eexists. by destruct cog. }
  destruct Hcase as [Hself | (game & Hin & Hover & Hplays)].
  { unfold user_eqb in Eself. lia. }
  assert (forallb (fun g => negb (TicTacToe.plays_in o g))
                  (TicTacToe.running cog) = false) as ->.
  { destruct (forallb _ _) eqn:E; [|done].
    rewrite forallb_forall in E.
    specialize (E game ltac:(by apply running_spec)).
    by rewrite Hplays in E. }
  simpl. eexists. by destruct cog.
Qed.

Lemma rejected_request_creates_no_game_witness :
  exists reason,
    TicTacToe.tic_tac_toe Sample.ctx (Some Sample.alice)
      (TicTacToe.init, Sample.world [])
    = (Ok tt,
       (TicTacToe.init,
        mkWorld 0 [] [] [Send 7 reason] 101)).
Proof.
  apply (rejected_request_creates_no_game Sample.ctx Sample.alice
           TicTacToe.init (Sample.world [])).
  left. reflexivity.
Defined.

(** What one command does to the registry: nothing, or one game more. *)
Lemma tic_tac_toe_appends_one ctx opponent cog w :
  TicTacToe.games (fst (snd (TicTacToe.tic_tac_toe ctx opponent (cog, w))))
  = TicTacToe.games cog
  \/ exists g,
       TicTacToe.games
         (fst (snd (TicTacToe.tic_tac_toe ctx opponent (cog, w))))
       = TicTacToe.games cog ++ [g].
Proof.
  destruct cog as [l].
  unfold TicTacToe.tic_tac_toe, TicTacToe.send. run_monad.
  destruct (match opponent with Some o => user_eqb o (ctx_author ctx)
                           | None => false end); [by left|].
  destruct (match opponent with
            | Some o => negb (forallb _ _) | None => false end); [by left|].
  right. destruct opponent as [o|]; simpl.
  - destruct (user_bot o); simpl; [eauto|].
    rewrite on_game_last.
    destruct (Game.get_confirmation _) as [[[confirmed msg]|e] [g1 w1]];
      simpl; [|eauto].
    destruct confirmed; simpl.
    + rewrite on_game_last. destruct (Game.play _) as [r [g2 w2]]. eauto.
    + destruct msg; simpl; eauto.
  - rewrite on_game_last. destruct (Game.play _) as [r [g2 w2]]. eauto.
Qed.

Lemma step_appends_one cog cw :
  exists extra,
    TicTacToe.games (step cog cw) = TicTacToe.games cog ++ extra
    /\ (length extra <= 1)%nat.
Proof.
  destruct cw as [c w]. unfold step. simpl.
  destruct c as [ctx opponent | ctx | ctx game_id]; simpl.
  - unfold TicTacToe.invoke_tic_tac_toe. run_monad.
    destruct (_ && _ && _).
    + destruct (tic_tac_toe_appends_one ctx opponent cog w) as [-> | [g ->]].
      * exists []. rewrite app_nil_r. simpl. split; [done | lia].
      * exists [g]. simpl. split; [done | lia].
    + exists []. rewrite app_nil_r. simpl. split; [done | lia].
  - exists []. rewrite app_nil_r. split; [|simpl; lia].
    unfold TicTacToe.tic_tac_toe_logs, TicTacToe.send. run_monad.
    repeat (case_match; simpl in *; simplify_eq); done.
  - exists []. rewrite app_nil_r. split; [|simpl; lia].
    unfold TicTacToe.show_tic_tac_toe_board, TicTacToe.show_game,
      TicTacToe.send. run_monad.
    repeat (case_match; simpl in *; simplify_eq); done.
Qed.

(** X5. The registry only grows, and by one game per command at most:
    after any sequence of commands the games that were there are still
    there, unchanged and at their positions, followed by no more new games
    than commands were run. *)
Theorem registry_is_append_only
    (cog : TicTacToe.t) (trace : list (Command * World)) :
  exists extra,
    TicTacToe.games (run cog trace) = TicTacToe.games cog ++ extra
    /\ (length extra <= length trace)%nat.
Proof.
  revert cog. induction trace as [|cw trace IH]; intros cog; simpl.
  - exists []. rewrite app_nil_r. split; [done | simpl; lia].
  - destruct (IH (step cog cw)) as (extra & -> & Hlen).
    destruct (step_appends_one cog cw) as (extra' & -> & Hlen').
    exists (extra' ++ extra). rewrite <- app_assoc. split; [done|].
    rewrite length_app. lia.
Qed.

(** ** [check_win], continued *)

(** X6. [check_win] reads the cells 1 to 9 and nothing else: boards that
    agree on them get the same answer, whatever other keys they hold and in
    whatever order their items are. *)
Theorem check_win_reads_cells_only (b b' : Board) :
  (forall k, 1 <= k <= 9 -> Dict.find k b = Dict.find k b') ->
  check_win b = check_win b'.
Proof.
  intros H.
  pose proof (H 1 ltac:(lia)) as E1. pose proof (H 2 ltac:(lia)) as E2.
  pose proof (H 3 ltac:(lia)) as E3. pose proof (H 4 ltac:(lia)) as E4.
  pose proof (H 5 ltac:(lia)) as E5. pose proof (H 6 ltac:(lia)) as E6.
  pose proof (H 7 ltac:(lia)) as E7. pose proof (H 8 ltac:(lia)) as E8.
  pose proof (H 9 ltac:(lia)) as E9.
  unfold check_win, winning_combinations, check_win_loop, combination_wins,
    Dict.get.
  by rewrite E1, E2, E3, E4, E5, E6, E7, E8, E9.
Qed.

Lemma check_win_reads_cells_only_witness :
  check_win Sample.top_row = check_win (Dict.set 10 Emojis.x_square Sample.top_row).
Proof.
  apply (check_win_reads_cells_only Sample.top_row
           (Dict.set 10 Emojis.x_square Sample.top_row)).
  intros k Hk. symmetry. apply find_set_ne. lia.
Defined.

(** ** The turn loop, continued *)

(** [check_win] never answers [True] without a line, nor [False] with
    one. *)
Lemma check_win_shape b h o :
  check_win b = Ok (h, o) ->
  (h = true /\ exists l, o = Some l) \/ (h = false /\ o = None).
Proof.
  unfold check_win. generalize winning_combinations as combos.
  induction combos as [|l combos IH]; simpl.
  - intros [= <- <-]. by right.
  - destruct (combination_wins b l) as [[|]|e]; simpl; [|done|done].
    intros [= <- <-]. left. eauto.
Qed.

Lemma apply_move_outcome pos g w flow g' w' :
  Game.apply_move pos (g, w) = (Ok flow, (g', w')) ->
  Game.draw g' = Game.draw g /\ same_pair g g' /\ turn_post g flow g'
  /\ (flow = Continue -> check_win (Game.board g') = Ok (false, None)).
Proof.
  unfold Game.apply_move. run_monad.
  destruct (getitem (Game.children g) (pos - 1)) as [btn|e]; simpl; [|done].
  destruct (setitem _ _ _) as [children'|e]; simpl; [|done].
  destruct (check_win _) as [[h o]|e] eqn:Ewin; simpl; [|done].
  destruct (check_win_shape _ _ _ Ewin) as [[-> [l ->]] | [-> ->]]; simpl;
    intros [= <- <- <-]; simpl.
  - split; [done|]. split; [by left|]. split; [|done].
    repeat split; eauto.
  - split; [done|]. split; [by right|]. split; [|done]. done.
Qed.

Lemma play_turn_outcome msg g w flow g' w' :
  Game.play_turn msg (g, w) = (Ok flow, (g', w')) ->
  Game.draw g' = Game.draw g /\ same_pair g g' /\ turn_post g flow g'
  /\ (flow = Continue -> check_win (Game.board g') = Ok (false, None)).
Proof.
  unfold Game.play_turn. run_monad. intros H.
  destruct (Game.current g) as [p|a] eqn:Ecur; simpl in *.
  - destruct (Player.get_move p (Game.board g) msg _) as [[[|pos inter]|e] w1];
      simplify_eq; simpl.
    + split; [done|]. split; [by left|]. done.
    + by apply apply_move_outcome in H.
  - destruct (AI.get_move (Game.board g) msg w) as [[[|pos inter]|e] w1];
      simplify_eq; simpl.
    + split; [done|]. split; [by left|]. done.
    + by apply apply_move_outcome in H.
Qed.

Lemma same_pair_trans g1 g2 g3 :
  same_pair g1 g2 -> same_pair g2 g3 -> same_pair g1 g3.
Proof.
  unfold same_pair. intros [[? ?]|[? ?]] [[? ?]|[? ?]]; [left|right|right|left];
    split; congruence.
Qed.

Lemma play_loop_outcome n msg g w flow g' w' :
  Game.play_loop n msg (g, w) = (Ok flow, (g', w')) ->
  Game.draw g' = Game.draw g /\ same_pair g g' /\ turn_post g flow g'
  /\ (flow = Continue -> n <> O ->
      check_win (Game.board g') = Ok (false, None)).
Proof.
  revert g w. induction n as [|n IH]; intros g w; simpl.
  - unfold St.ret. intros [= <- <- <-].
    split; [done|]. split; [by left|]. done.
  - unfold St.bind.
    destruct (Game.play_turn msg (g, w)) as [[flow1|e] [g1 w1]] eqn:Eturn;
      [|done].
    apply play_turn_outcome in Eturn as (Hd & Hp & Hpost & Hwin).
    destruct flow1; unfold St.ret.
    + intros H. pose proof (IH _ _ H) as (Hd' & Hp' & Hpost' & Hwin').
      split; [congruence|]. split; [by eapply same_pair_trans|].
      simpl in Hpost. destruct Hpost as (Hw & Hl & Hc & Ho).
      split.
      * destruct flow; simpl in *.
        -- destruct Hpost' as (? & ? & ? & ?). repeat split; congruence.
        -- destruct Hpost' as (? & ? & ? & ? & ?).
           repeat split; try congruence; done.
        -- destruct Hpost' as (? & ? & ? & ?). repeat split; congruence.
      * intros -> _. destruct n as [|n]; [|by apply Hwin'].
        simpl in H. unfold St.ret in H. injection H as <- <-. by apply Hwin.
    + intros [= <- <- <-]. split; [done|]. split; [done|]. done.
    + intros [= <- <- <-]. split; [done|]. split; [done|]. done.
Qed.

(** X7. A game that [play] has returned from is in exactly one terminal
    status, and over: cancelled (a move timed out), won, or drawn. Winner
    and loser of a won game are the two participants of the game, one
    each. *)
Theorem play_ends_in_one_terminal_status
    (g : Game.t) (w : World) (g' : Game.t) (w' : World) :
  Game.winner g = None -> Game.draw g = false -> Game.canceled g = false ->
  Game.play (g, w) = (Ok tt, (g', w')) ->
  Game.over g' = true
  /\ ((Game.canceled g' = true /\ Game.winner g' = None
       /\ Game.draw g' = false)
      \/ (Game.canceled g' = false /\ Game.draw g' = false
          /\ ((Game.winner g' = Some (Game.current g)
               /\ Game.loser g' = Some (Game.next g))
              \/ (Game.winner g' = Some (Game.next g)
                  /\ Game.loser g' = Some (Game.current g))))
      \/ (Game.canceled g' = false /\ Game.winner g' = None
          /\ Game.draw g' = true)).
Proof.
  intros Hw Hd Hc. unfold Game.play.
  unfold St.bind at 1 2 3 4. unfold St.on_fst at 1.
  unfold St.on_snd at 1 2. unfold St.get. simpl.
  destruct (Game.play_loop _ _ _) as [[flow|e] [g1 w1]] eqn:Eloop; [|done].
  apply play_loop_outcome in Eloop as (Hd1 & Hp1 & Hpost & _).
  destruct flow; simpl in Hpost; run_monad.
  - destruct Hpost as (Hw1 & Hl1 & Hc1 & Ho1).
    rewrite Hw1, Hw. intros [= <- <-]. simpl.
    split; [done|]. right. right. repeat split; congruence.
  - destruct Hpost as (Hc1 & Ho1 & Hw1 & Hl1 & _).
    rewrite Hw1. intros [= <- <-]. simpl.
    split; [done|]. right. left.
    split; [congruence|]. split; [congruence|].
    destruct Hp1 as [[E1 E2] | [E1 E2]]; [left | right];
      split; congruence.
  - destruct Hpost as (Ho1 & Hc1 & Hw1 & Hl1).
    intros [= <- <-]. split; [done|]. left. repeat split; congruence.
Qed.

Lemma play_ends_in_one_terminal_status_witness :
  exists g' w',
    Game.play (Sample.fresh_game, Sample.nine_clicks) = (Ok tt, (g', w'))
    /\ Game.over g' = true
    /\ Game.canceled g' = false /\ Game.draw g' = false
    /\ Game.winner g' = Some Sample.X /\ Game.loser g' = Some Sample.O.
Proof.
  destruct (Game.play (Sample.fresh_game, Sample.nine_clicks))
    as [r [g' w']] eqn:E.
  assert (r = Ok tt) as -> by (by vm_compute in E; injection E as <- _).
  destruct (play_ends_in_one_terminal_status Sample.fresh_game
              Sample.nine_clicks g' w' eq_refl eq_refl eq_refl E)
    as [Hover _].
  exists g', w'. split; [done|]. split; [exact Hover|].
  vm_compute in E. injection E as <- _. repeat split.
Defined.

(** X8. The verdict of [play] agrees with the board it leaves: a game ended
    with a winner has a complete line on its final board, and a game ended
    as a draw has none. *)
Theorem play_verdict_matches_board
    (g : Game.t) (w : World) (g' : Game.t) (w' : World) :
  Game.winner g = None -> Game.draw g = false -> Game.board g <> [] ->
  Game.play (g, w) = (Ok tt, (g', w')) ->
  (is_Some (Game.winner g') ->
   exists line, check_win (Game.board g') = Ok (true, Some line))
  /\ (Game.draw g' = true ->
      check_win (Game.board g') = Ok (false, None)).
Proof.
  intros Hw Hd Hb. unfold Game.play.
  unfold St.bind at 1 2 3 4. unfold St.on_fst at 1.
  unfold St.on_snd at 1 2. unfold St.get. simpl.
  destruct (Game.play_loop _ _ _) as [[flow|e] [g1 w1]] eqn:Eloop; [|done].
  apply play_loop_outcome in Eloop as (Hd1 & Hp1 & Hpost & Hwin).
  destruct flow; simpl in Hpost; run_monad.
  - destruct Hpost as (Hw1 & Hl1 & Hc1 & Ho1).
    rewrite Hw1, Hw. intros [= <- <-]. simpl. split.
    + rewrite Hw1, Hw. by intros [? ?].
    + intros _. apply Hwin; [done|]. by destruct (Game.board g).
  - destruct Hpost as (Hc1 & Ho1 & Hw1 & Hl1 & Hline).
    rewrite Hw1. intros [= <- <-]. simpl. split; [done|]. congruence.
  - destruct Hpost as (Ho1 & Hc1 & Hw1 & Hl1).
    intros [= <- <-]. split.
    + rewrite Hw1, Hw. by intros [? ?].
    + congruence.
Qed.

Lemma play_verdict_matches_board_witness :
  exists g' w',
    Game.play (Sample.fresh_game, Sample.nine_clicks) = (Ok tt, (g', w'))
    /\ (is_Some (Game.winner g') ->
        exists line, check_win (Game.board g') = Ok (true, Some line)).
Proof.
  destruct (Game.play (Sample.fresh_game, Sample.nine_clicks))
    as [r [g' w']] eqn:E.
  assert (r = Ok tt) as -> by (by vm_compute in E; injection E as <- _).
  exists g', w'. split; [done|].
  apply (play_verdict_matches_board Sample.fresh_game Sample.nine_clicks
           g' w' eq_refl eq_refl ltac:(done) E).
Defined.

(** X9. A turn that ends [play] is a timed-out move: the game is set over
    and cancelled, the board and the winner stay as they were, every button
    is disabled, and the last message names the participant who ran out of
    time. *)
Theorem timed_out_turn_cancels_game
    (msg : Z) (g : Game.t) (w : World) (g' : Game.t) (w' : World) :
  Game.play_turn msg (g, w) = (Ok Return, (g', w')) ->
  Game.over g' = true /\ Game.canceled g' = true
  /\ Game.board g' = Game.board g
  /\ Game.winner g' = Game.winner g
  /\ length (Game.children g') = length (Game.children g)
  /\ Forall (fun b => btn_disabled b = true) (Game.children g')
  /\ exists sent,
       outbox w'
       = sent ++ [Send (ctx_channel (Game.ctx g))
                       [Mention (participant_user (Game.current g));
                        Txt " ran out of time. Canceling game."]].
Proof.
  unfold Game.play_turn. run_monad. intros H.
  assert (Forall (fun b => btn_disabled b = true)
                 (map (fun b => mkButton (btn_style b) (btn_emoji b)
                                         (btn_row b) (btn_custom_id b) true)
                      (Game.children g))) as Hdis.
  { apply List.Forall_forall. intros b Hb. apply in_map_iff in Hb
      as (b0 & <- & _). done. }
  destruct (Game.current g) as [p|a] eqn:Ecur; simpl in *.
  - destruct (Player.get_move p (Game.board g) msg _) as [[[|pos inter]|e] w1];
      simplify_eq; simpl.
    + rewrite length_map. repeat split; try done. eauto.
    + apply apply_move_frame in H as (_ & _ & _ & Hne). done.
  - destruct (AI.get_move (Game.board g) msg w) as [[[|pos inter]|e] w1];
      simplify_eq; simpl.
    + rewrite length_map. repeat split; try done. eauto.
    + apply apply_move_frame in H as (_ & _ & _ & Hne). done.
Qed.

Lemma timed_out_turn_cancels_game_witness :
  exists g' w',
    Game.play_turn 101 (Sample.fresh_game, Sample.world []) 
    = (Ok Return, (g', w'))
    /\ Game.over g' = true /\ Game.canceled g' = true
    /\ Game.board g' = Game.board Sample.fresh_game.
Proof.
  destruct (Game.play_turn 101 (Sample.fresh_game, Sample.world []))
    as [r [g' w']] eqn:E.
  assert (r = Ok Return) as -> by (by vm_compute in E; injection E as <- _).
  destruct (timed_out_turn_cancels_game 101 Sample.fresh_game
              (Sample.world []) g' w' E) as (Ho & Hc & Hb & _).
  exists g', w'. auto.
Defined.

(** ** Confirmation *)

(** What [wait_for] hands over is an event of the inbox that arrived within
    the timeout and passes the check. *)
Lemma await_event_Some {A} (select : Event -> option A) check start deadline
    pending t a rest :
  Discord.await_event select check start deadline pending
  = (Some (t, a), rest) ->
  start <= t < deadline /\ check a = true
  /\ exists ev, In (t, ev) pending /\ select ev = Some a.
Proof.
  induction pending as [|[t0 ev0] pending IH]; simpl; [done|].
  destruct (t0 <? start) eqn:E1.
  { intros H. destruct (IH H) as (? & ? & ev & ? & ?). eauto 10. }
  destruct (deadline <=? t0) eqn:E2; [done|].
  destruct (select ev0) as [a0|] eqn:Esel.
  - destruct (check a0) eqn:Echeck.
    + intros [= <- <- <-]. split; [lia|]. split; [done|]. eauto.
    + intros H. destruct (IH H) as (? & ? & ev & ? & ?). eauto 10.
  - intros H. destruct (IH H) as (? & ? & ev & ? & ?). eauto 10.
Qed.

Lemma getitem_Ok_nonneg {A} (l : list A) i x :
  0 <= i -> getitem l i = Ok x -> l !! Z.to_nat i = Some x.
Proof.
  intros Hi. unfold getitem.
  destruct (i <? 0) eqn:E0; [lia|].
  destruct ((i <? 0) || (Z.of_nat (length l) <=? i)); [done|].
  destruct (l !! Z.to_nat i); [|done]. by intros [= ->].
Qed.

(** X10. [get_confirmation] accepts only on a confirmation reaction of the
    invited player to the confirmation message, arrived within 60 seconds,
    and then leaves the game as it is; in every other case that it returns
    (a decline or no valid reaction in time) it gives a reason and sets the
    game over and cancelled, with its board untouched. *)
Theorem confirmation_outcomes
    (g : Game.t) (w : World) (confirmed : bool) (msg : option Text)
    (g' : Game.t) (w' : World) :
  Game.get_confirmation (g, w) = (Ok (confirmed, msg), (g', w')) ->
  (confirmed = true /\ msg = None /\ g' = g
   /\ exists t user opponent,
        In (t, EvReactionAdd Emojis.confirmation (next_id w) user) (inbox w)
        /\ clock w <= t < clock w + 60000
        /\ Game.players g !! 1%nat = Some opponent
        /\ user_id user = user_id (participant_user opponent))
  \/ (confirmed = false /\ is_Some msg
      /\ Game.over g' = true /\ Game.canceled g' = true
      /\ Game.board g' = Game.board g
      /\ Game.winner g' = Game.winner g).
Proof.
  unfold Game.get_confirmation. run_monad.
  destruct (getitem (Game.players g) 1) as [opponent|e] eqn:Eopp;
    simpl; [|done].
  destruct (getitem (Game.players g) 0) as [requester|e]; simpl; [|done].
  unfold Discord.wait_for. simpl.
  destruct (Discord.await_event _ _ _ _ _) as [[[t [[emoji m] user]]|] rest]
    eqn:Ewait; simpl.
  - apply await_event_Some in Ewait as (Ht & Hcheck & ev & Hin & Hsel).
    destruct ev as [|emoji' m' user']; simpl in Hsel; [done|].
    injection Hsel as -> -> ->.
    unfold Game.confirm_check in Hcheck.
    apply andb_prop in Hcheck as [Hcheck Huser].
    apply andb_prop in Hcheck as [_ Hmsg].
    apply Z.eqb_eq in Hmsg as ->. unfold user_eqb in Huser.
    destruct emoji; simpl; intros [= <- <- <- <-].
    + left. split; [done|]. split; [done|]. split; [by destruct g|].
      exists t, user, opponent. split; [done|]. split; [done|].
      split; [by apply (getitem_Ok_nonneg _ 1) | lia].
    + right. simpl. repeat split; eauto.
    + right. simpl. repeat split; eauto.
  - intros [= <- <- <- <-]. right. simpl. repeat split; eauto.
Qed.

Lemma confirmation_outcomes_witness :
  exists g' w',
    Game.get_confirmation
      (Sample.fresh_game,
       Sample.world [(5000, EvReactionAdd Emojis.decline 100 Sample.bob)])
    = (Ok (false, Some [Txt "User declined"]), (g', w'))
    /\ Game.over g' = true /\ Game.canceled g' = true.
Proof.
  destruct (Game.get_confirmation
              (Sample.fresh_game,
               Sample.world
                 [(5000, EvReactionAdd Emojis.decline 100 Sample.bob)]))
    as [r [g' w']] eqn:E.
  assert (r = Ok (false, Some [Txt "User declined"])) as ->
    by (by vm_compute in E; injection E as <- _).
  destruct (confirmation_outcomes _ _ _ _ _ _ E)
    as [(Hc & _) | (_ & _ & Ho & Hc & _)]; [done|].
  exists g', w'. auto.
Defined.

(** ** The history *)




(** ** A new game *)


(** X13. The buttons of a new game and the reading of a click agree: the
    button of cell [k] is enabled, lies in row [(k - 1) / 3], and a click on
    it passes [check_for_move] for the message it belongs to and is read
    back as the position [k]. *)
Theorem button_click_round_trip
    (players : list Participant) (ctx : Context) (g : Game.t) (k : Z)
    (btn : Button) (user : User) (msg : Z) :
  Game.init players ctx = Ok g ->
  1 <= k <= 9 ->
  Game.children g !! Z.to_nat (k - 1) = Some btn ->
  btn_disabled btn = false
  /\ btn_row btn = (k - 1) / 3
  /\ Player.check_for_move msg (click_on btn user msg) = true
  /\ Player.position_of (click_on btn user msg) = Ok k.
Proof.
  unfold Game.init.
  destruct (getitem players 0) as [p0|]; simpl; [|done].
  destruct (getitem players 1) as [p1|]; simpl; [|done].
  intros [= <-] Hk. simpl.
  assert (k = 1 \/ k = 2 \/ k = 3 \/ k = 4 \/ k = 5 \/ k = 6 \/ k = 7
          \/ k = 8 \/ k = 9) as Hk' by lia.
  unfold Player.check_for_move, click_on.
  destruct Hk' as [->|[->|[->|[->|[->|[->|[->|[->| ->]]]]]]]];
    intros [= <-]; simpl; rewrite Z.eqb_refl; repeat split.
Qed.

Lemma button_click_round_trip_witness :
  exists btn,
    Game.children Sample.fresh_game !! 4%nat = Some btn
    /\ Player.position_of (click_on btn Sample.alice 101) = Ok 5.
Proof.
  destruct (Game.children Sample.fresh_game !! 4%nat) as [btn|] eqn:E;
    [|done].
  exists btn. split; [done|].
  apply (button_click_round_trip [Sample.X; Sample.O] Sample.ctx
           Sample.fresh_game 5 btn Sample.alice 101);
    [reflexivity | lia | exact E].
Defined.

(** ** The move sources, continued *)

Ltac older_event IH H :=
  let Hout := fresh "Hout" in
  let Hmove := fresh "Hmove" in
  let Ht := fresh "Ht" in
  destruct (IH _ _ _ _ _ H) as (Hout & Hmove & Ht);
  split; [|split];
  [ eapply Forall_impl; [exact Hout|];
    intros ? (i & t1 & ? & ? & ? & ?); exists i, t1;
    repeat split; auto; by right
  | intros pos from E; destruct (Hmove _ _ E) as (i & ? & ? & ? & ? & ?);
    exists i; repeat split; auto; by right
  | lia ].

Lemma get_move_loop_sound self msg start pending out r t rest :
  Player.get_move_loop self msg start pending = (out, r, t, rest) ->
  Forall (fun o =>
            exists inter t0,
              o = Respond inter Player.not_your_turn true
              /\ In (t0, EvInteraction inter) pending
              /\ Player.check_for_move msg inter = true
              /\ user_id (inter_user inter) <> user_id (Player.user self))
         out
  /\ (forall pos from,
        r = Ok (Move pos from) ->
        exists inter,
          from = Some inter
          /\ In (t, EvInteraction inter) pending
          /\ Player.check_for_move msg inter = true
          /\ user_id (inter_user inter) = user_id (Player.user self)
          /\ Player.position_of inter = Ok pos)
  /\ start <= t.
Proof.
  revert start out r t rest.
  induction pending as [|[t0 ev] pending IH]; intros start out r t rest;
    cbn [Player.get_move_loop].
  - intros [= <- <- <- <-]. split; [constructor|]. split; [done|].
    unfold TIMEOUT. lia.
  - destruct (t0 <? start) eqn:E1; [intros H; older_event IH H|].
    destruct (start + TIMEOUT <=? t0) eqn:E2.
    { intros [= <- <- <- <-]. split; [constructor|]. split; [done|].
      unfold TIMEOUT. lia. }
    destruct ev as [inter|e m u]; cbn [Discord.interaction];
      [|intros H; older_event IH H].
    destruct (Player.check_for_move msg inter) eqn:Echeck;
      [|intros H; older_event IH H].
    destruct (user_id (inter_user inter) =? user_id (Player.user self))
      eqn:Euser; cbn [negb].
    + intros [= <- <- <- <-]. split; [constructor|]. split; [|lia].
      intros pos from E. exists inter.
      destruct (Player.position_of inter) as [p|e]; simpl in E; [|done].
      injection E as <- <-. repeat split; auto; [by left | lia].
    + destruct (Player.get_move_loop self msg t0 pending)
        as [[[out1 r1] t1] rest1] eqn:Eloop.
      intros [= <- <- <- <-].
      destruct (IH _ _ _ _ _ Eloop) as (Hout & Hmove & Ht).
      split; [|split; [|lia]].
      * constructor.
        -- exists inter, t0. repeat split; auto; [by left | lia].
        -- eapply Forall_impl; [exact Hout|].
           intros ? (i & t2 & ? & ? & ? & ?). exists i, t2.
           repeat split; auto; by right.
      * intros pos from E. destruct (Hmove _ _ E) as (i & ? & ? & ? & ? & ?).
        exists i. repeat split; auto; by right.
Qed.

(** X14. A move that [Player.get_move] returns comes from the awaited
    player: it is read off a click in the inbox that passes
    [check_for_move] and whose user is the player. Everything the wait
    sends is a "not your turn" response to such a click of someone else, and
    time does not run backwards. *)
Theorem human_move_comes_from_the_player
    (self : Player.t) (board : Board) (msg : Z) (w : World)
    (r : result MoveOutcome) (w' : World) :
  Player.get_move self board msg w = (r, w') ->
  (forall pos from,
     r = Ok (Move pos from) ->
     exists inter,
       from = Some inter
       /\ In (clock w', EvInteraction inter) (inbox w)
       /\ Player.check_for_move msg inter = true
       /\ user_id (inter_user inter) = user_id (Player.user self)
       /\ Player.position_of inter = Ok pos)
  /\ (exists sent,
        outbox w' = outbox w ++ sent
        /\ Forall (fun o =>
                     exists inter t0,
                       o = Respond inter Player.not_your_turn true
                       /\ In (t0, EvInteraction inter) (inbox w)
                       /\ Player.check_for_move msg inter = true
                       /\ user_id (inter_user inter)
                          <> user_id (Player.user self))
                  sent)
  /\ clock w <= clock w'
  /\ entropy w' = entropy w /\ next_id w' = next_id w.
Proof.
  unfold Player.get_move.
  destruct (Player.get_move_loop self msg (clock w) (inbox w))
    as [[[out r1] t] rest] eqn:Eloop.
  intros [= <- <-]. simpl.
  destruct (get_move_loop_sound _ _ _ _ _ _ _ _ Eloop) as (Hout & Hmove & Ht).
  split; [done|]. split; [eauto|]. done.
Qed.

Lemma human_move_comes_from_the_player_witness :
  exists w' inter,
    Player.get_move Sample.bob_player (Game.board Sample.x_on_1) 101
      (Sample.world [ (10, Sample.click Sample.alice 101 4);
                      (20, Sample.click Sample.bob 101 5) ])
    = (Ok (Move 5 (Some inter)), w')
    /\ user_id (inter_user inter) = user_id Sample.bob.
Proof.
  destruct (Player.get_move Sample.bob_player (Game.board Sample.x_on_1) 101
              (Sample.world [ (10, Sample.click Sample.alice 101 4);
                              (20, Sample.click Sample.bob 101 5) ]))
    as [r w'] eqn:E.
  destruct (human_move_comes_from_the_player _ _ _ _ _ _ E) as [Hmove _].
  vm_compute in E. injection E as <- <-.
  destruct (Hmove 5 _ eq_refl) as (inter & [= <-] & _ & _ & Huser & _).
  eexists _, _. split; [reflexivity | exact Huser].
Defined.




(** X16. When O has no line to complete and X has one, on an undecided
    board, the heuristic blocks: its move is the first empty cell, in the
    order of the board, where X would complete a line. *)
Theorem ai_blocks_the_opponent (b : Board) (msg : Z) (w : World) :
  full_board b -> undecided b ->
  (forall m, ~ completes b Emojis.o_square m) ->
  (exists m, completes b Emojis.x_square m) ->
  exists m w',
    AI.get_move b msg w = (Ok (Move m None), w')
    /\ first_in (completes b Emojis.x_square) (AI.possible_moves b) m.
Proof.
  intros Hb Hund Hno [m0 Hm0].
  assert (In m0 (AI.possible_moves b)) as Hin0
    by (apply possible_moves_spec; [done | apply Hm0]).
  destruct (ai_get_move_after_delay b msg w) as (w1 & _ & _ & _ & ->).
  pose proof (possible_moves_empty b Hb) as Hempty. simpl.
  destruct (winning_move_cases b Emojis.o_square _ Hb Hund
              ltac:(done) Hempty) as [[_ ->] | (m & Hm & _)]; simpl.
  - destruct (winning_move_cases b Emojis.x_square _ Hb Hund
                ltac:(done) Hempty) as [[Hall _] | (m & Hm & ->)]; simpl.
    + rewrite List.Forall_forall in Hall. by destruct (Hall m0 Hin0).
    + eauto.
  - apply first_in_In in Hm as [_ Hm]. by destruct (Hno m).
Qed.

Lemma x_threatens_alone :
  full_board Sample.x_threatens /\ undecided Sample.x_threatens
  /\ (forall m, ~ completes Sample.x_threatens Emojis.o_square m)
  /\ completes Sample.x_threatens Emojis.x_square 1.
Proof.
  assert (full_board Sample.x_threatens) as Hb
    by (by apply full_board_ordered).
  split; [done|]. split; [apply undecided_iff; [done | reflexivity]|].
  split.
  - intros m (Hm & l & Hl & Hin & Hall).
    simpl in Hl.
    destruct Hl as [<-|[<-|[<-|[<-|[<-|[<-|[<-|[<-|[]]]]]]]]]; simpl in Hin;
      destruct Hin as [<-|[<-|[<-|[]]]]; try discriminate Hm;
      first [ specialize (Hall 1 ltac:(simpl; tauto) ltac:(lia))
            | specialize (Hall 2 ltac:(simpl; tauto) ltac:(lia))
            | specialize (Hall 3 ltac:(simpl; tauto) ltac:(lia))
            | specialize (Hall 4 ltac:(simpl; tauto) ltac:(lia))
            | specialize (Hall 6 ltac:(simpl; tauto) ltac:(lia))
            | specialize (Hall 7 ltac:(simpl; tauto) ltac:(lia))
            | specialize (Hall 8 ltac:(simpl; tauto) ltac:(lia))
            | specialize (Hall 9 ltac:(simpl; tauto) ltac:(lia)) ];
      discriminate Hall.
  - split; [reflexivity|]. exists (1, 2, 3).
    split; [simpl; tauto|]. split; [simpl; tauto|].
    intros k [<-|[<-|[<-|[]]]] Hk; (reflexivity || done).
Defined.

Lemma ai_blocks_the_opponent_witness :
  exists m w',
    AI.get_move Sample.x_threatens 101 (Sample.world [])
    = (Ok (Move m None), w')
    /\ first_in (completes Sample.x_threatens Emojis.x_square)
                (AI.possible_moves Sample.x_threatens) m.
Proof.
  destruct x_threatens_alone as (Hb & Hund & Hno & Hx).
  apply ai_blocks_the_opponent; eauto.
Defined.

(** X17. With no move that completes a line for either mark, the heuristic
    takes an open corner when there is one, and otherwise the center when
    it is empty. *)
Theorem ai_prefers_corner_then_center (b : Board) (msg : Z) (w : World) :
  AI.first_winning_move [Emojis.o_square; Emojis.x_square]
                        (AI.possible_moves b) b = Ok None ->
  (AI.open_corners (AI.possible_moves b) <> [] ->
   exists m w',
     AI.get_move b msg w = (Ok (Move m None), w')
     /\ In m (AI.open_corners (AI.possible_moves b))
     /\ In m [1; 3; 7; 9])
  /\ (AI.open_corners (AI.possible_moves b) = [] ->
      AI.in_list 5 (AI.possible_moves b) = true ->
      exists w', AI.get_move b msg w = (Ok (Move 5 None), w')).
Proof.
  intros Hnone.
  destruct (ai_get_move_after_delay b msg w) as (w1 & _ & _ & _ & ->).
  rewrite Hnone. split.
  - intros Hcorners.
    destruct (0 <? Z.of_nat (length (AI.open_corners (AI.possible_moves b))))
      eqn:E.
    2: { destruct (AI.open_corners (AI.possible_moves b)); [done|].
         apply Z.ltb_ge in E. cbn [length] in E. lia. }
    destruct (choice_nonempty _ w1 Hcorners) as (m & w' & Ec & Hm).
    exists m, w'. unfold St.bind. rewrite Ec. split; [done|]. split; [done|].
    unfold AI.open_corners in Hm. apply filter_In in Hm as [_ Hm].
    unfold AI.in_list in Hm. apply existsb_exists in Hm as (x & Hx & Ex).
    by apply Z.eqb_eq in Ex as <-.
  - intros -> ->. simpl. eauto.
Qed.

Lemma ai_prefers_corner_then_center_witness :
  exists m w',
    AI.get_move (Game.board Sample.x_on_1) 101 (Sample.world [])
    = (Ok (Move m None), w')
    /\ In m [1; 3; 7; 9].
Proof.
  destruct (ai_prefers_corner_then_center (Game.board Sample.x_on_1) 101
              (Sample.world []) eq_refl) as [H _].
  destruct H as (m & w' & E & _ & Hm); [done|]. eauto.
Defined.

(** ** Showing a board *)

Lemma format_board_total (g : Game.t) :
  length (Game.board g) = 9%nat ->
  exists text,
    Game.format_board g = Ok text
    /\ emojis_of text = Dict.values (Game.board g).
Proof.
  intros Hlen. unfold Game.format_board.
  destruct (Game.board g)
    as [|[k1 v1] [|[k2 v2] [|[k3 v3] [|[k4 v4] [|[k5 v5] [|[k6 v6]
         [|[k7 v7] [|[k8 v8] [|[k9 v9] [|? ?]]]]]]]]]]; try done.
  eexists. split; [vm_compute; reflexivity | reflexivity].
Qed.

(** X18. The board of a game with nine cells is rendered without fail as
    its nine marks, in the order of the board, on three lines. *)
Theorem format_board_renders_marks (g : Game.t) :
  length (Game.board g) = 9%nat ->
  exists text,
    Game.format_board g = Ok text
    /\ emojis_of text = Dict.values (Game.board g)
    /\ length (List.filter
                 (fun f => match f with
                           | Txt s => String.eqb s newline
                           | _ => false
                           end) text) = 2%nat.
Proof.
  intros Hlen. unfold Game.format_board.
  destruct (Game.board g)
    as [|[k1 v1] [|[k2 v2] [|[k3 v3] [|[k4 v4] [|[k5 v5] [|[k6 v6]
         [|[k7 v7] [|[k8 v8] [|[k9 v9] [|? ?]]]]]]]]]]; try done.
  eexists. split; [vm_compute; reflexivity|]. split; reflexivity.
Qed.

Lemma format_board_renders_marks_witness :
  exists text,
    Game.format_board Sample.x_on_1 = Ok text
    /\ emojis_of text = Dict.values (Game.board Sample.x_on_1).
Proof.
  destruct (format_board_renders_marks Sample.x_on_1 eq_refl)
    as (text & E & Hm & _).
  eauto.
Defined.

(** X19. Showing a game with nine cells and two players never fails: it
    sends one embed, titled with the id that was asked for, whose
    description shows the nine marks of the board, and changes nothing
    else; a game that is neither won nor drawn is shown all the same. *)
Theorem show_game_sends_one_embed
    (ctx : Context) (game_id : Z) (game : Game.t) (cog : TicTacToe.t)
    (w : World) :
  length (Game.board game) = 9%nat ->
  (2 <= length (Game.players game))%nat ->
  exists description,
    TicTacToe.description game = Ok description
    /\ emojis_of description = Dict.values (Game.board game)
    /\ TicTacToe.show_game ctx game_id game (cog, w)
       = (Ok tt,
          (cog,
           mkWorld (clock w) (inbox w) (entropy w)
             (outbox w
              ++ [SendEmbed (ctx_channel ctx)
                    [Txt ("Match #" +:+ py_str game_id +:+ " Game Board")]
                    description])
             (next_id w + 1))).
Proof.
  intros Hlen Hplayers.
  destruct (format_board_total game Hlen) as (text & Etext & Hmarks).
  unfold TicTacToe.show_game, TicTacToe.description. run_monad.
  rewrite Etext.
  destruct (getitem_nonneg (Game.players game) 0) as (p0 & -> & _); [lia|].
  destruct (getitem_nonneg (Game.players game) 1) as (p1 & -> & _); [lia|].
  destruct (Game.draw game); simpl; eexists;
    (split; [reflexivity|]); (split; [|by destruct cog]).
  - rewrite <- Hmarks. reflexivity.
  - rewrite <- Hmarks. unfold optional_str.
    destruct (Game.winner game), (Game.loser game); reflexivity.
Qed.

Lemma show_game_sends_one_embed_witness :
  exists description,
    TicTacToe.show_game Sample.ctx 1 Sample.x_on_1
      (TicTacToe.mk [Sample.x_on_1], Sample.world [])
    = (Ok tt,
       (TicTacToe.mk [Sample.x_on_1],
        mkWorld 0 [] []
          [SendEmbed 7 [Txt "Match #1 Game Board"] description] 101)).
Proof.
  destruct (show_game_sends_one_embed Sample.ctx 1 Sample.x_on_1
              (TicTacToe.mk [Sample.x_on_1]) (Sample.world []))
    as (d & _ & _ & E); [reflexivity | simpl; lia |].
  exists d. exact E.
Defined.

(** ** Moves beyond the board, and invitations *)

(** X20. A move to a position beyond the nine buttons is not refused
    before it is applied: the board is given the new key first, and only
    then the lookup of the button raises [IndexError]. The game is left with
    the changed board and is not set over. *)
Theorem move_beyond_buttons_raises_late
    (g : Game.t) (w : World) (pos : Z) :
  length (Game.children g) = 9%nat ->
  10 <= pos \/ pos <= -9 ->
  Game.apply_move pos (g, w)
  = (Raise IndexError,
     (Game.set_board
        (Dict.set pos (participant_symbol (Game.current g)) (Game.board g))
        g, w)).
Proof.
  intros Hlen Hpos. unfold Game.apply_move. run_monad.
  rewrite getitem_out_of_range by lia. done.
Qed.

Lemma move_beyond_buttons_raises_late_witness :
  exists g',
    Game.apply_move 10 (Sample.fresh_game, Sample.world [])
    = (Raise IndexError, (g', Sample.world []))
    /\ Dict.find 10 (Game.board g') = Some Emojis.x_square
    /\ Game.over g' = false.
Proof.
  eexists. split.
  - apply (move_beyond_buttons_raises_late Sample.fresh_game
             (Sample.world []) 10); [reflexivity | lia].
  - split; reflexivity.
Defined.

(** A refusal sets the game over and cancelled. *)
Lemma confirmation_outcomes_cases g w confirmed msg g' w' :
  Game.get_confirmation (g, w) = (Ok (confirmed, msg), (g', w')) ->
  confirmed = false -> Game.over g' = true /\ Game.canceled g' = true.
Proof.
  unfold Game.get_confirmation. run_monad.
  destruct (getitem (Game.players g) 1) as [opponent|e]; simpl; [|done].
  destruct (getitem (Game.players g) 0) as [requester|e]; simpl; [|done].
  unfold Discord.wait_for. simpl.
  destruct (Discord.await_event _ _ _ _ _) as [[[t [[emoji m] user]]|] rest];
    simpl.
  - destruct emoji; simpl; intros [= <- <- <- <-]; done.
  - intros [= <- <- <- <-]. done.
Qed.

(** X21. An invitation that is declined, or not answered in time, still
    takes its place in the registry: the game created for it stays there,
    over and cancelled, and the reason is sent to the channel. *)
Theorem declined_invitation_keeps_its_slot
    (ctx : Context) (o : User) (cog : TicTacToe.t) (w : World)
    (g0 g1 : Game.t) (w1 : World) (reason : Text) :
  user_id o <> user_id (ctx_author ctx) ->
  user_bot o = false ->
  forallb (fun g => negb (TicTacToe.plays_in o g)) (TicTacToe.running cog)
  = true ->
  Game.init [ Human (Player.mk (ctx_author ctx) ctx Emojis.x_square);
              Human (Player.mk o ctx Emojis.o_square) ] ctx = Ok g0 ->
  Game.get_confirmation (g0, w) = (Ok (false, Some reason), (g1, w1)) ->
  TicTacToe.tic_tac_toe ctx (Some o) (cog, w)
  = (Ok tt,
     (TicTacToe.mk (TicTacToe.games cog ++ [g1]),
      mkWorld (clock w1) (inbox w1) (entropy w1)
        (outbox w1 ++ [Send (ctx_channel ctx) reason]) (next_id w1 + 1)))
  /\ Game.over g1 = true /\ Game.canceled g1 = true.
Proof.
  intros Hself Hbot Hfree Hinit Hconf.
  destruct (confirmation_outcomes_cases g0 w false (Some reason) g1 w1 Hconf
              eq_refl) as (Ho & Hc).
  split; [|done].
  destruct cog as [l].
  unfold TicTacToe.tic_tac_toe, TicTacToe.send.
  unfold St.bind at 1. unfold St.on_fst at 1. unfold St.get. cbn [fst snd].
  assert (user_eqb o (ctx_author ctx) = false) as ->
    by (unfold user_eqb; lia).
  rewrite Hfree. cbn [negb]. rewrite Hinit, Hbot.
  unfold St.bind at 1. unfold St.lift.
  unfold St.bind at 1. unfold St.on_fst, St.modify. cbn [fst snd].
  cbn [TicTacToe.games]. unfold St.bind at 1.
  rewrite on_game_last. rewrite Hconf. cbn [negb].
  unfold St.bind, St.on_snd, Discord.send, St.ret. simpl. done.
Qed.

Lemma declined_invitation_keeps_its_slot_witness :
  exists g1 w',
    TicTacToe.tic_tac_toe Sample.ctx (Some Sample.bob)
      (TicTacToe.init,
       Sample.world [(5000, EvReactionAdd Emojis.decline 100 Sample.bob)])
    = (Ok tt, (TicTacToe.mk [g1], w'))
    /\ Game.over g1 = true /\ Game.canceled g1 = true.
Proof.
  destruct (Game.get_confirmation
              (Sample.fresh_game,
               Sample.world
                 [(5000, EvReactionAdd Emojis.decline 100 Sample.bob)]))
    as [r [g1 w1]] eqn:E.
  assert (r = Ok (false, Some [Txt "User declined"])) as ->
    by (by vm_compute in E; injection E as <- _).
  destruct (declined_invitation_keeps_its_slot Sample.ctx Sample.bob
              TicTacToe.init
              (Sample.world
                 [(5000, EvReactionAdd Emojis.decline 100 Sample.bob)])
              Sample.fresh_game g1 w1 [Txt "User declined"])
    as (Hrun & Ho & Hc);
    [simpl; lia | reflexivity | reflexivity | reflexivity | exact E |].
  eexists _, _. split; [exact Hrun|]. auto.
Defined.
